(** * ConceptNet 5 URIs: a model of [conceptnet5/uri.py]

    The module builds and parses slash-delimited URIs.  Python strings are
    modelled as lists of Unicode code points, Python exceptions as an error
    result, and every function of the module is transcribed below under its
    own name. *)

From Stdlib Require Import List String Ascii NArith ZArith Bool Lia.
Import ListNotations.

Set Warnings "-register-all".

(** ** Python strings *)

(** A character is a Unicode code point. *)
Definition char := N.

(** A Python (unicode) string. *)
Definition pystr := list char.

(** A string literal of the source. *)
Definition py (s : string) : pystr := map N_of_ascii (list_ascii_of_string s).

Definition SLASH : char := 47%N.
Definition RBRACKET : char := 93%N.
Definition SPACE : char := 32%N.
Definition UNDERSCORE : char := 95%N.

Definition is_slash (c : char) : bool := N.eqb c SLASH.

(** [==] on strings. *)
Fixpoint str_eqb (a b : pystr) : bool :=
  match a, b with
  | [], [] => true
  | x :: a', y :: b' => N.eqb x y && str_eqb a' b'
  | _, _ => false
  end.

(** [s.lstrip(chars)], [s.rstrip(chars)] and [s.strip(chars)], the set of
    stripped characters given as a predicate. *)
Fixpoint lstrip (p : char -> bool) (s : pystr) : pystr :=
  match s with
  | [] => []
  | c :: s' => if p c then lstrip p s' else s
  end.

Definition rstrip (p : char -> bool) (s : pystr) : pystr :=
  rev (lstrip p (rev s)).

Definition strip (p : char -> bool) (s : pystr) : pystr :=
  rstrip p (lstrip p s).

(** [s.split(sep)] for a one-character separator: never the empty list. *)
Fixpoint split (sep : char) (s : pystr) : list pystr :=
  match s with
  | [] => [[]]
  | c :: s' =>
      if N.eqb c sep then [] :: split sep s'
      else match split sep s' with
           | [] => [[c]]
           | w :: ws => (c :: w) :: ws
           end
  end.

(** [sep.join(l)]. *)
Fixpoint join (sep : pystr) (l : list pystr) : pystr :=
  match l with
  | [] => []
  | x :: rest =>
      match rest with
      | [] => x
      | _ :: _ => x ++ sep ++ join sep rest
      end
  end.

(** [s.replace(old, new)] for one-character [old] and [new]. *)
Definition replace (old new : char) (s : pystr) : pystr :=
  map (fun c => if N.eqb c old then new else c) s.

(** [x in l] and [l.index(x)] on a list of strings. *)
Definition contains (x : pystr) (l : list pystr) : bool :=
  existsb (str_eqb x) l.

Fixpoint index (x : pystr) (l : list pystr) : nat :=
  match l with
  | [] => 0
  | y :: l' => if str_eqb y x then 0 else S (index x l')
  end.

(** [l[start:stop]] for indices already resolved to positions. *)
Definition slice {A : Type} (l : list A) (start stop : nat) : list A :=
  firstn (stop - start) (skipn start l).

(** [l[-1]], with the string a missing element would have to be compared to. *)
Definition last_piece (l : list pystr) : pystr := last l [].

(** ** Exceptions *)

Inductive exn : Type :=
| ValueError (msg : string)
| AttributeError (msg : string).

Inductive result (A : Type) : Type :=
| Ok (a : A)
| Raise (e : exn).

Arguments Ok {A} a.
Arguments Raise {A} e.

Definition bind {A B : Type} (m : result A) (k : A -> result B) : result B :=
  match m with
  | Ok a => k a
  | Raise e => Raise e
  end.

Notation "x <- m ;; k" := (bind m (fun x => k))
  (at level 61, m at next level, right associativity).

Fixpoint mapM {A B : Type} (f : A -> result B) (l : list A) : result (list B) :=
  match l with
  | [] => Ok []
  | a :: l' => b <- f a ;; bs <- mapM f l' ;; Ok (b :: bs)
  end.

(** ** [join_uri] *)

(** [join_uri]: a slash, then the pieces, each stripped of its leading and
    trailing slashes, joined by single slashes. *)
Definition join_uri (pieces : list pystr) : pystr :=
  py "/" ++ join (py "/") (map (strip is_slash) pieces).

(** ** [normalize_text] and [concept_uri] *)

(** The characters [s.strip()] removes: those for which [str.isspace] holds,
    which are the controls U+0009 to U+000D and U+001C to U+001F, the space,
    U+0085, and the Unicode space separators and line separators. *)
Definition is_space (c : char) : bool :=
  ((0x09 <=? c) && (c <=? 0x0d) || (0x1c <=? c) && (c <=? 0x1f)
   || (c =? 0x20) || (c =? 0x85) || (c =? 0xa0) || (c =? 0x1680)
   || (0x2000 <=? c) && (c <=? 0x200a)
   || (c =? 0x2028) || (c =? 0x2029) || (c =? 0x202f) || (c =? 0x205f)
   || (c =? 0x3000))%N.

Section Normalizer.

(** [ftfy.fix_text], the text repair of another package. *)
Variable fix_text : pystr -> pystr.

(** [str.lower], which reads the Unicode case tables. *)
Variable lower : pystr -> pystr.

(** [normalize_text(text)].  The argument is a unicode string by its type, so
    the guard that raises on bytes does not fire. *)
Definition normalize_text (text : pystr) : pystr :=
  replace SPACE UNDERSCORE (lower (strip is_space (fix_text text))).

(** [concept_uri(lang, text, pos=None, disambiguation=None)]. *)
Definition concept_uri (lang text : pystr) (pos disambiguation : option pystr)
  : result pystr :=
  let n_text := normalize_text text in
  match pos with
  | None =>
      match disambiguation with
      | Some _ =>
          Raise (ValueError "Disambiguated concepts must have a part of speech")
      | None => Ok (join_uri [py "/c"; lang; n_text])
      end
  | Some pos =>
      match disambiguation with
      | None => Ok (join_uri [py "/c"; lang; n_text; pos])
      | Some disambiguation =>
          let n_disambig := normalize_text disambiguation in
          Ok (join_uri [py "/c"; lang; n_text; pos; n_disambig])
      end
  end.

End Normalizer.

(** An instance of the case tables for the examples: the letters A to Z. *)
Definition ascii_lower (s : pystr) : pystr :=
  map (fun c => if ((65 <=? c) && (c <=? 90))%N then (c + 32)%N else c) s.

(** A text repair that finds nothing to repair. *)
Definition no_repair (s : pystr) : pystr := s.

(** A repair that is idempotent and still acts on lowered text: it appends a
    capital A to a string that has none. *)
Definition append_capital (s : pystr) : pystr :=
  if existsb (N.eqb 65) s then s else s ++ [65%N].

(** ** [compound_uri] *)

(** One turn of the loop over [args]; the state is [items] and [first_item]. *)
Definition compound_step (st : list pystr * bool) (arg : pystr)
  : list pystr * bool :=
  let '(items, first_item) := st in
  if first_item then (items ++ [arg], false)
  else ((items ++ [py ","]) ++ [arg], false).

(** [compound_uri(op, args)]. *)
Definition compound_uri (op : pystr) (args : list pystr) : pystr :=
  let items := [op] in
  let first_item := true in
  let items := items ++ [py "["] in
  let '(items, _) := fold_left compound_step args (items, first_item) in
  let items := items ++ [py "]"] in
  join_uri items.

(** ** [parse_compound_uri] *)

(** What is appended to [chunks]: a slash and the joined pieces of [current],
    stripped of slashes. *)
Definition chunk_of (current : list pystr) : pystr :=
  py "/" ++ strip is_slash (join (py "/") current).

(** One turn of the loop over the pieces of the argument list; the state is
    [chunks], [current] and [depth]. *)
Definition scan_step (st : list pystr * list pystr * Z) (piece : pystr)
  : list pystr * list pystr * Z :=
  let '(chunks, current, depth) := st in
  if str_eqb piece (py ",") && (depth =? 0)%Z then
    (chunks ++ [chunk_of current], [], depth)
  else
    let current := current ++ [piece] in
    if str_eqb piece (py "[") then (chunks, current, (depth + 1)%Z)
    else if str_eqb piece (py "]") then (chunks, current, (depth - 1)%Z)
    else (chunks, current, depth).

(** [parse_compound_uri(uri)]. *)
Definition parse_compound_uri (uri : pystr) : result (pystr * list pystr) :=
  let pieces := split SLASH (lstrip is_slash uri) in
  if negb (str_eqb (last_piece pieces) (py "]")) then
    Raise (ValueError "Compound URIs must end with /]")
  else if negb (contains (py "[") pieces) then
    Raise (ValueError
      "Compound URIs must contain /[/ at the beginning of the argument list")
  else
    let list_start := index (py "[") pieces in
    let op := join_uri (slice pieces 0 list_start) in
    let '(chunks, current, _) :=
      fold_left scan_step
        (slice pieces (list_start + 1) (List.length pieces - 1))
        ([], [], 0%Z) in
    let chunks :=
      match current with
      | [] => chunks
      | _ :: _ => chunks ++ [chunk_of current]
      end in
    Ok (op, chunks).

(** ** The builders *)

(** The builders take whatever their caller passes: a string or a list. *)
Inductive pyval : Type :=
| PStr (s : pystr)
| PList (l : list pyval).

(** A piece reaches [piece.strip] in [join_uri]: a list has no such method. *)
Definition as_str (v : pyval) : result pystr :=
  match v with
  | PStr s => Ok s
  | PList _ => Raise (AttributeError "'list' object has no attribute 'strip'")
  end.

(** [conjunction_uri], called with the tuple [sources]. *)
Definition conjunction_uri (sources : list pyval) : result pyval :=
  match sources with
  | [] => Raise (ValueError "Conjunctions of 0 things are not allowed")
  | [source] => Ok source
  | _ :: _ :: _ =>
      args <- mapM as_str sources ;; Ok (PStr (compound_uri (py "/and") args))
  end.

(** [disjunction_uri], called with the tuple [sources]. *)
Definition disjunction_uri (sources : list pyval) : result pyval :=
  match sources with
  | [] => Raise (ValueError "Disjunctions of 0 things are not allowed")
  | [source] => Ok source
  | _ :: _ :: _ =>
      args <- mapM as_str sources ;; Ok (PStr (compound_uri (py "/or") args))
  end.

(** [assertion_uri], called with [rel] and the tuple [args]: the body is the
    docstring alone, so a call returns [None]. *)
Definition assertion_uri (rel : pystr) (args : list pystr) : option pystr :=
  None.

(** [and_or_tree(list_of_lists)]: each sublist is passed to [conjunction_uri]
    as one positional argument, and the list [ands] to [disjunction_uri] as
    one positional argument. *)
Definition and_or_tree (list_of_lists : list pyval) : result pyval :=
  ands <- mapM (fun sublist => conjunction_uri [sublist]) list_of_lists ;;
  disjunction_uri [PList ands].

(** The constants of [License]. *)
Definition cc_attribution : pystr := py "/l/CC/By".
Definition cc_sharealike : pystr := py "/l/CC/By-SA".

(** ** Vocabulary of the specification *)

(** No character of the set [p] at the head, respectively at the end. *)
Definition head_free (p : char -> bool) (s : pystr) : bool :=
  match s with
  | c :: _ => negb (p c)
  | [] => true
  end.

Definition last_free (p : char -> bool) (s : pystr) : bool :=
  head_free p (rev s).

(** The string begins with a slash that no second slash follows. *)
Definition begins_with_single_slash (u : pystr) : bool :=
  match u with
  | c :: rest => is_slash c && head_free is_slash rest
  | [] => false
  end.

(** The last character of the string is a slash. *)
Definition ends_with_slash (u : pystr) : bool :=
  match rev u with
  | c :: _ => is_slash c
  | [] => false
  end.

(** A URI: one leading slash, no trailing slash. *)
Definition wf_uri (u : pystr) : bool :=
  begins_with_single_slash u && negb (ends_with_slash u).

(** The segments of a URI. *)
Definition segments (u : pystr) : list pystr :=
  split SLASH (strip is_slash u).

(** The structural tokens of the compound grammar. *)
Definition reserved (p : pystr) : bool :=
  str_eqb p (py "[") || str_eqb p (py "]") || str_eqb p (py ",").

Definition no_reserved_segments (u : pystr) : bool :=
  forallb (fun p => negb (reserved p)) (segments u).

(** The bracket depth reached after a run of segments entered at [depth]. *)
Fixpoint depth_after (depth : Z) (segs : list pystr) : Z :=
  match segs with
  | [] => depth
  | p :: rest =>
      if str_eqb p (py "[") then depth_after (depth + 1) rest
      else if str_eqb p (py "]") then depth_after (depth - 1) rest
      else depth_after depth rest
  end.

(** Every comma segment of the run lies inside a bracket pair. *)
Fixpoint commas_inside (depth : Z) (segs : list pystr) : bool :=
  match segs with
  | [] => true
  | p :: rest =>
      if str_eqb p (py ",") then (0 <? depth)%Z && commas_inside depth rest
      else if str_eqb p (py "[") then commas_inside (depth + 1) rest
      else if str_eqb p (py "]") then commas_inside (depth - 1) rest
      else commas_inside depth rest
  end.

(** An argument URI: a URI whose comma segments are all bracketed and whose
    brackets close. *)
Definition wf_arg (a : pystr) : bool :=
  wf_uri a && commas_inside 0 (segments a)
  && (depth_after 0 (segments a) =? 0)%Z.

(** An operator URI: a URI with no structural token among its segments. *)
Definition wf_op (op : pystr) : bool :=
  wf_uri op && no_reserved_segments op.

(** The arguments with a comma segment before each of them but the first. *)
Definition comma_separated (args : list pystr) : list pystr :=
  match args with
  | [] => []
  | a :: rest => a :: flat_map (fun b => [py ","; b]) rest
  end.

(** The pieces [parse_compound_uri] splits its argument into. *)
Definition uri_pieces (uri : pystr) : list pystr :=
  split SLASH (lstrip is_slash uri).

(** A present optional argument contributes one piece. *)
Definition optional_piece (o : option pystr) : list pystr :=
  match o with
  | Some p => [p]
  | None => []
  end.

(** The string has no leading and no trailing whitespace. *)
Definition stripped (s : pystr) : Prop :=
  head_free is_space s = true /\ last_free is_space s = true.

(** A list of lists of strings as the value [and_or_tree] receives. *)
Definition lists_value (list_of_lists : list (list pystr)) : list pyval :=
  map (fun sublist => PList (map PStr sublist)) list_of_lists.

(** The value is a string. *)
Definition is_str (v : pyval) : bool :=
  match v with
  | PStr _ => true
  | PList _ => false
  end.

(** [and_or_tree] as the specification words it: [conjunction_uri] over the
    elements of each inner list, [disjunction_uri] over the results. *)
Definition and_or_tree_spec (list_of_lists : list (list pystr))
  : result pyval :=
  ands <- mapM (fun sublist => conjunction_uri (map PStr sublist))
               list_of_lists ;;
  disjunction_uri ands.

(** The brackets of the string's segments close and its comma segments all
    lie inside them. *)
Definition balanced (a : pystr) : bool :=
  commas_inside 0 (segments a) && (depth_after 0 (segments a) =? 0)%Z.

(** The pieces an operator leaves once the parser has dropped the leading
    slashes: none when the operator is made of slashes only. *)
Definition leading_pieces (op : pystr) : list pystr :=
  match strip is_slash op with
  | [] => []
  | _ :: _ => segments op
  end.

(** * Facts about the string primitives *)

Lemma str_eqb_eq (a b : pystr) : str_eqb a b = true <-> a = b.
Proof.
  revert b; induction a as [|x a IH]; intros [|y b]; simpl;
    try (split; congruence).
  rewrite andb_true_iff, N.eqb_eq, IH. split.
  - intros [-> ->]; reflexivity.
  - intros H; injection H; auto.
Qed.

Lemma str_eqb_refl (a : pystr) : str_eqb a a = true.
Proof. apply str_eqb_eq; reflexivity. Qed.

Lemma str_eqb_neq (a b : pystr) : str_eqb a b = false <-> a <> b.
Proof.
  rewrite <- str_eqb_eq. destruct (str_eqb a b); split; congruence.
Qed.

Lemma str_eqb_sym (a b : pystr) : str_eqb a b = str_eqb b a.
Proof.
  destruct (str_eqb b a) eqn:E.
  - apply str_eqb_eq in E; subst; apply str_eqb_refl.
  - apply str_eqb_neq; apply str_eqb_neq in E; congruence.
Qed.

Section Strip.

Variable p : char -> bool.

Lemma lstrip_head_free (s : pystr) : head_free p (lstrip p s) = true.
Proof.
  induction s as [|c s IH]; simpl; auto.
  destruct (p c) eqn:E; auto. simpl. rewrite E. reflexivity.
Qed.

Lemma lstrip_id (s : pystr) : head_free p s = true -> lstrip p s = s.
Proof.
  destruct s as [|c s]; simpl; auto.
  destruct (p c); simpl; congruence.
Qed.

Lemma lstrip_suffix (s : pystr) : exists t, s = t ++ lstrip p s.
Proof.
  induction s as [|c s [t IH]]; simpl.
  - exists []; reflexivity.
  - destruct (p c).
    + exists (c :: t). simpl. congruence.
    + exists []. reflexivity.
Qed.

Lemma rstrip_last_free (s : pystr) : last_free p (rstrip p s) = true.
Proof.
  unfold last_free, rstrip. rewrite rev_involutive. apply lstrip_head_free.
Qed.

Lemma rstrip_id (s : pystr) : last_free p s = true -> rstrip p s = s.
Proof.
  unfold last_free, rstrip. intros H. rewrite lstrip_id by assumption.
  apply rev_involutive.
Qed.

Lemma rstrip_prefix (s : pystr) : exists t, s = rstrip p s ++ t.
Proof.
  unfold rstrip. destruct (lstrip_suffix (rev s)) as [t H].
  exists (rev t). rewrite <- rev_app_distr, <- H. symmetry.
  apply rev_involutive.
Qed.

Lemma rstrip_head_free (s : pystr) :
  head_free p s = true -> head_free p (rstrip p s) = true.
Proof.
  intros H. destruct (rstrip_prefix s) as [t E].
  destruct (rstrip p s) as [|c r]; auto.
  rewrite E in H. exact H.
Qed.

Lemma strip_head_free (s : pystr) : head_free p (strip p s) = true.
Proof. apply rstrip_head_free, lstrip_head_free. Qed.

Lemma strip_last_free (s : pystr) : last_free p (strip p s) = true.
Proof. apply rstrip_last_free. Qed.

Lemma strip_id (s : pystr) :
  head_free p s = true -> last_free p s = true -> strip p s = s.
Proof.
  intros H1 H2. unfold strip. rewrite lstrip_id by assumption.
  apply rstrip_id; assumption.
Qed.

Lemma strip_idem (s : pystr) : strip p (strip p s) = strip p s.
Proof. apply strip_id; [apply strip_head_free | apply strip_last_free]. Qed.

Lemma free_of_none (s : pystr) :
  (forall c, In c s -> p c = false) ->
  head_free p s = true /\ last_free p s = true.
Proof.
  intros H. split.
  - destruct s as [|c s]; simpl; auto. rewrite (H c); simpl; auto.
  - unfold last_free. destruct (rev s) as [|c r] eqn:E; simpl; auto.
    rewrite (H c); auto. apply in_rev. rewrite E. left; reflexivity.
Qed.

End Strip.

Lemma last_free_app_cons (p : char -> bool) (s t : pystr) (c : char) :
  last_free p (s ++ c :: t) = last_free p (c :: t).
Proof.
  unfold last_free. rewrite rev_app_distr.
  destruct (rev (c :: t)) as [|d r] eqn:E.
  - apply (f_equal (@List.length _)) in E. rewrite length_rev in E.
    discriminate.
  - reflexivity.
Qed.

Lemma ends_with_slash_last_free (u : pystr) :
  ends_with_slash u = negb (last_free is_slash u).
Proof.
  unfold ends_with_slash, last_free. destruct (rev u); simpl; auto.
  rewrite negb_involutive. reflexivity.
Qed.

(** A URI is its own stripped form behind one slash. *)
Lemma wf_uri_strip (u : pystr) :
  wf_uri u = true -> py "/" ++ strip is_slash u = u.
Proof.
  unfold wf_uri. rewrite andb_true_iff, ends_with_slash_last_free.
  rewrite negb_involutive. intros [Hb He].
  destruct u as [|c rest]; simpl in Hb; [discriminate|].
  apply andb_true_iff in Hb as [Hc Hr].
  unfold strip. simpl. rewrite Hc.
  rewrite (lstrip_id _ _ Hr).
  destruct rest as [|d rest'].
  - unfold last_free in He. simpl in He. rewrite Hc in He. discriminate.
  - change (c :: d :: rest') with ([c] ++ d :: rest') in He.
    rewrite last_free_app_cons in He. rewrite (rstrip_id _ _ He).
    unfold is_slash in Hc. apply N.eqb_eq in Hc. subst c. reflexivity.
Qed.

Lemma wf_uri_strip_nonempty (u : pystr) :
  wf_uri u = true -> strip is_slash u <> [].
Proof.
  intros H E. pose proof (wf_uri_strip u H) as W. rewrite E in W.
  subst u. discriminate H.
Qed.

Section SplitJoin.

Variable sep : char.

Lemma split_nonempty (s : pystr) : split sep s <> [].
Proof.
  induction s as [|c s IH]; simpl; [discriminate|].
  destruct (N.eqb c sep); [discriminate|].
  destruct (split sep s); discriminate.
Qed.

Lemma split_app (a b : pystr) :
  split sep (a ++ sep :: b) = split sep a ++ split sep b.
Proof.
  induction a as [|c a IH]; simpl.
  - rewrite N.eqb_refl. reflexivity.
  - destruct (N.eqb c sep); [rewrite IH; reflexivity|].
    rewrite IH. destruct (split sep a) eqn:E; [|reflexivity].
    exfalso. exact (split_nonempty _ E).
Qed.

Lemma split_pieces (s : pystr) :
  Forall (fun w => ~ In sep w) (split sep s).
Proof.
  induction s as [|c s IH]; simpl.
  - constructor; auto.
  - destruct (N.eqb_spec c sep) as [->|N].
    + constructor; auto.
    + destruct (split sep s) as [|w ws]; inversion IH; subst.
      * constructor; auto. simpl; intuition.
      * constructor; auto. simpl; intuition.
Qed.

Lemma join_cons2 (x y : pystr) (l : list pystr) :
  join [sep] (x :: y :: l) = x ++ sep :: join [sep] (y :: l).
Proof. reflexivity. Qed.

Lemma join_split (s : pystr) : join [sep] (split sep s) = s.
Proof.
  induction s as [|c s IH]; simpl; auto.
  destruct (N.eqb_spec c sep) as [->|N].
  - destruct (split sep s) as [|w ws] eqn:E.
    + exfalso. exact (split_nonempty _ E).
    + simpl in *. rewrite IH. reflexivity.
  - destruct (split sep s) as [|w ws] eqn:E.
    + exfalso. exact (split_nonempty _ E).
    + simpl in *. destruct ws; simpl in *; rewrite <- IH; reflexivity.
Qed.

Lemma split_join (l : list pystr) :
  l <> [] -> split sep (join [sep] l) = flat_map (split sep) l.
Proof.
  induction l as [|x l IH]; [congruence|]. intros _.
  destruct l as [|y l].
  - simpl. rewrite app_nil_r. reflexivity.
  - rewrite join_cons2, split_app, IH by discriminate. reflexivity.
Qed.

End SplitJoin.

(** A piece that [split] produced is not changed by stripping slashes. *)
Lemma strip_piece (w : pystr) : ~ In SLASH w -> strip is_slash w = w.
Proof.
  intros H.
  destruct (free_of_none is_slash w) as [H1 H2].
  - intros c Hc. unfold is_slash. apply N.eqb_neq. intros ->. auto.
  - apply strip_id; assumption.
Qed.

Lemma map_strip_pieces (s : pystr) :
  map (strip is_slash) (split SLASH s) = split SLASH s.
Proof.
  pose proof (split_pieces SLASH s) as H.
  induction H as [|w ws Hw _ IH]; simpl; auto.
  rewrite strip_piece, IH by assumption. reflexivity.
Qed.

(** Joining the segments of a URI gives the URI back. *)
Lemma join_uri_segments (u : pystr) :
  wf_uri u = true -> join_uri (segments u) = u.
Proof.
  intros H. unfold join_uri, segments. rewrite map_strip_pieces.
  change (py "/") with [SLASH]. rewrite join_split.
  apply (wf_uri_strip u H).
Qed.

(** * [join_uri] *)

Lemma join_uri_unfold (pieces : list pystr) :
  join_uri pieces = SLASH :: join [SLASH] (map (strip is_slash) pieces).
Proof. reflexivity. Qed.

Lemma join_last (sep : char) (l : list pystr) :
  l <> [] -> exists pre, join [sep] l = pre ++ last l [].
Proof.
  induction l as [|x l IH]; [congruence|]. intros _.
  destruct l as [|y l].
  - exists []. reflexivity.
  - destruct IH as [pre E]; [discriminate|].
    exists (x ++ sep :: pre). rewrite join_cons2, E.
    rewrite <- app_assoc. reflexivity.
Qed.

Lemma last_map_strip (l : list pystr) :
  last (map (strip is_slash) l) [] = strip is_slash (last l []).
Proof.
  induction l as [|x l IH]; auto.
  destruct l as [|y l]; auto.
Qed.

Lemma head_free_join (x : pystr) (l : list pystr) :
  head_free is_slash x = true ->
  head_free is_slash (join [SLASH] (x :: l)) = true <->
  (l = [] \/ x <> []).
Proof.
  intros Hx. destruct l as [|y l].
  - simpl. intuition.
  - rewrite join_cons2. destruct x as [|c x]; simpl.
    + split; [discriminate|]. intros [H|H]; congruence.
    + simpl in Hx. rewrite Hx. split; auto. intros _. right. discriminate.
Qed.

Example join_uri_doc1 :
  join_uri [py "/c"; py "en"; py "cat"] = py "/c/en/cat".
Proof. reflexivity. Qed.

Example join_uri_doc2 :
  join_uri [py "c"; py "en"; py " spaces "] = py "/c/en/ spaces ".
Proof. reflexivity. Qed.

Example join_uri_doc3 :
  join_uri [py "/r/"; py "AtLocation/"] = py "/r/AtLocation".
Proof. reflexivity. Qed.

Example join_uri_doc4 :
  join_uri [py "/test"; py "/more/"] = py "/test/more".
Proof. reflexivity. Qed.

(** C4, as stated, fails: when the first piece strips to the empty string and
    another piece follows, the result begins with two slashes.  Here
    [join_uri('', 'a')] is ['//a']. *)
Lemma join_uri_double_slash :
  join_uri [py ""; py "a"] = py "//a" /\
  begins_with_single_slash (join_uri [py ""; py "a"]) = false.
Proof. split; reflexivity. Qed.

(** C4, amended: [join_uri] always begins with a slash; it begins with two
    exactly when the first piece strips to the empty string and another piece
    follows; on a non-empty sequence it ends with a slash only if the final
    piece strips to the empty string; on the empty sequence it is ['/']. *)
Theorem join_uri_slashes (pieces : list pystr) :
  (exists rest, join_uri pieces = SLASH :: rest) /\
  (begins_with_single_slash (join_uri pieces) = false <->
   exists p q rest, pieces = p :: q :: rest /\ strip is_slash p = []) /\
  (pieces <> [] -> ends_with_slash (join_uri pieces) = true ->
   strip is_slash (last pieces []) = []) /\
  join_uri [] = py "/".
Proof.
  repeat split.
  - eexists. apply join_uri_unfold.
  - rewrite join_uri_unfold. simpl. intros H.
    destruct pieces as [|p l]; [discriminate H|].
    simpl map in H.
    destruct (head_free is_slash
                (join [SLASH] (strip is_slash p :: map (strip is_slash) l)))
      eqn:E; [discriminate|].
    destruct l as [|q rest].
    + simpl in E. rewrite strip_head_free in E. discriminate.
    + exists p, q, rest. split; auto.
      destruct (strip is_slash p) eqn:Ep; auto.
      exfalso. rewrite <- Ep in E.
      assert (T : head_free is_slash
                (join [SLASH]
                   (strip is_slash p :: map (strip is_slash) (q :: rest)))
              = true).
      { apply head_free_join; [apply strip_head_free|].
        right. rewrite Ep. discriminate. }
      simpl map in T, E. congruence.
  - intros (p & q & rest & -> & Hp). rewrite join_uri_unfold. simpl map.
    rewrite Hp. reflexivity.
  - intros Hne He. rewrite ends_with_slash_last_free in He.
    apply negb_true_iff in He.
    rewrite join_uri_unfold in He.
    assert (Hm : map (strip is_slash) pieces <> [])
      by (destruct pieces; [congruence|discriminate]).
    destruct (join_last SLASH _ Hm) as [pre E].
    rewrite E, last_map_strip in He.
    destruct (strip is_slash (last pieces [])) as [|c t] eqn:El; auto.
    exfalso.
    change (SLASH :: pre ++ c :: t) with ((SLASH :: pre) ++ c :: t) in He.
    rewrite last_free_app_cons, <- El, strip_last_free in He. discriminate.
Qed.

(** * [compound_uri] *)

Lemma compound_loop_rest (args items : list pystr) :
  fold_left compound_step args (items, false) =
  (items ++ flat_map (fun b => [py ","; b]) args, false).
Proof.
  revert items; induction args as [|a args IH]; intros items; simpl.
  - rewrite app_nil_r. reflexivity.
  - rewrite IH. repeat rewrite <- app_assoc. reflexivity.
Qed.

Lemma compound_loop (args items : list pystr) :
  fst (fold_left compound_step args (items, true)) =
  items ++ comma_separated args.
Proof.
  destruct args as [|a args]; simpl.
  - rewrite app_nil_r. reflexivity.
  - rewrite compound_loop_rest. simpl. rewrite <- app_assoc. reflexivity.
Qed.

(** [wf_uri_strip] with the slash as a character. *)
Lemma slash_strip (u : pystr) :
  wf_uri u = true -> SLASH :: strip is_slash u = u.
Proof. exact (wf_uri_strip u). Qed.

(** The loop of [compound_uri] builds the operator, a bracket, the
    comma-separated arguments and a bracket. *)
Lemma compound_uri_items (op : pystr) (args : list pystr) :
  compound_uri op args =
  join_uri (op :: py "[" :: comma_separated args ++ [py "]"]).
Proof.
  unfold compound_uri.
  pose proof (compound_loop args ([op] ++ [py "["])) as H.
  destruct (fold_left compound_step args ([op] ++ [py "["], true)) as [items b].
  simpl in H. subst items. reflexivity.
Qed.

(** The joined arguments behind the first, up to the closing bracket. *)
Lemma join_tail (a : pystr) (rest : list pystr) :
  wf_uri a = true -> Forall (fun b => wf_uri b = true) rest ->
  SLASH :: join [SLASH]
    (strip is_slash a
       :: map (strip is_slash) (flat_map (fun b => [py ","; b]) rest)
       ++ [py "]"]) =
  join (py "/,") (a :: rest) ++ py "/]".
Proof.
  intros Ha Hrest. revert a Ha.
  induction Hrest as [|b rest Hb _ IH]; intros a Ha.
  - change (SLASH :: (strip is_slash a) ++ py "/]" = a ++ py "/]").
    rewrite app_comm_cons, (slash_strip a Ha). reflexivity.
  - change (SLASH :: strip is_slash a ++ py "/," ++
      (SLASH :: join [SLASH]
        (strip is_slash b
          :: map (strip is_slash) (flat_map (fun b => [py ","; b]) rest)
          ++ [py "]"])) =
      (a ++ py "/," ++ join (py "/,") (b :: rest)) ++ py "/]").
    rewrite (IH b Hb), app_comm_cons, (slash_strip a Ha).
    repeat rewrite <- app_assoc. reflexivity.
Qed.

(** The string [compound_uri] returns on URIs. *)
Lemma compound_uri_string (op : pystr) (args : list pystr) :
  wf_uri op = true -> Forall (fun a => wf_uri a = true) args ->
  compound_uri op args = op ++ py "/[" ++ join (py "/,") args ++ py "/]".
Proof.
  intros Hop Hargs. rewrite compound_uri_items, join_uri_unfold.
  destruct Hargs as [|a rest Ha Hrest].
  - change (SLASH :: strip is_slash op ++ py "/[/]" = op ++ py "/[/]").
    rewrite app_comm_cons, (slash_strip op Hop). reflexivity.
  - change (SLASH :: strip is_slash op ++ py "/[" ++
      (SLASH :: join [SLASH]
        (strip is_slash a
          :: map (strip is_slash)
               (flat_map (fun b => [py ","; b]) rest ++ [py "]"]))) =
      op ++ py "/[" ++ join (py "/,") (a :: rest) ++ py "/]").
    rewrite map_app.
    change (map (strip is_slash) [py "]"]) with [py "]"].
    rewrite (join_tail a rest Ha Hrest), app_comm_cons, (slash_strip op Hop).
    reflexivity.
Qed.

Example compound_uri_doc1 : compound_uri (py "/nothing") [] = py "/nothing/[/]".
Proof. reflexivity. Qed.

Example compound_uri_doc2 :
  compound_uri (py "/a") [py "/r/CapableOf"; py "/c/en/cat"; py "/c/en/sleep"]
  = py "/a/[/r/CapableOf/,/c/en/cat/,/c/en/sleep/]".
Proof. reflexivity. Qed.

(** C5: on an operator URI and argument URIs, [compound_uri] joins, with
    [join_uri], the operator, a bracket segment, the arguments with a comma
    segment before each but the first, and a closing bracket segment; with no
    argument that is the operator followed by ['/[/]'], with one argument the
    operator, ['/['], the argument and ['/]'], and in general the arguments
    separated by ['/,'] between ['/['] and ['/]']. *)
Theorem compound_uri_shape (op : pystr) (args : list pystr) :
  wf_uri op = true -> Forall (fun a => wf_uri a = true) args ->
  compound_uri op args =
    join_uri (op :: py "[" :: comma_separated args ++ [py "]"]) /\
  (args = [] -> compound_uri op args = op ++ py "/[/]") /\
  (forall a1, args = [a1] ->
     compound_uri op args = op ++ py "/[" ++ a1 ++ py "/]") /\
  compound_uri op args = op ++ py "/[" ++ join (py "/,") args ++ py "/]".
Proof.
  intros Hop Hargs.
  pose proof (compound_uri_string op args Hop Hargs) as S.
  repeat split.
  - apply compound_uri_items.
  - intros ->. exact S.
  - intros a1 ->. exact S.
  - exact S.
Qed.

Lemma compound_uri_shape_witness :
  compound_uri (py "/and") [py "/s/x"; py "/s/y"] =
  py "/and" ++ py "/[" ++ join (py "/,") [py "/s/x"; py "/s/y"] ++ py "/]".
Proof.
  assert (Hop : wf_uri (py "/and") = true) by reflexivity.
  assert (Hargs : Forall (fun a => wf_uri a = true) [py "/s/x"; py "/s/y"])
    by (repeat constructor).
  exact (proj2 (proj2 (proj2 (compound_uri_shape _ _ Hop Hargs)))).
Defined.

(** * [parse_compound_uri] *)

Lemma flat_map_map_strip (l : list pystr) :
  flat_map (split SLASH) (map (strip is_slash) l) = flat_map segments l.
Proof.
  induction l as [|x l IH]; simpl; auto. rewrite IH. reflexivity.
Qed.

(** The pieces the parser sees in a compound URI. *)
Lemma uri_pieces_compound (op : pystr) (args : list pystr) :
  wf_uri op = true ->
  uri_pieces (compound_uri op args) =
  segments op ++ py "[" :: flat_map segments (comma_separated args) ++ [py "]"].
Proof.
  intros Hop. unfold uri_pieces.
  rewrite compound_uri_items, join_uri_unfold.
  assert (Hh : head_free is_slash
            (join [SLASH]
               (map (strip is_slash)
                  (op :: py "[" :: comma_separated args ++ [py "]"]))) = true).
  { apply head_free_join; [apply strip_head_free|].
    right. apply wf_uri_strip_nonempty, Hop. }
  change (lstrip is_slash (SLASH :: ?x)) with (lstrip is_slash x).
  rewrite (lstrip_id _ _ Hh), split_join by discriminate.
  rewrite flat_map_map_strip.
  change (flat_map segments (op :: py "[" :: ?l))
    with (segments op ++ py "[" :: flat_map segments l).
  rewrite flat_map_app. reflexivity.
Qed.

Lemma last_piece_closing (a b : list pystr) (x : pystr) :
  last_piece (a ++ x :: b ++ [py "]"]) = py "]".
Proof.
  unfold last_piece.
  change (a ++ x :: b ++ [py "]"]) with (a ++ (x :: b) ++ [py "]"]).
  rewrite app_assoc. apply last_last.
Qed.

Lemma contains_middle (x : pystr) (a b : list pystr) :
  contains x (a ++ x :: b) = true.
Proof.
  unfold contains. rewrite existsb_app. simpl.
  rewrite str_eqb_refl. apply orb_true_iff. right. reflexivity.
Qed.

Lemma index_middle (x : pystr) (a b : list pystr) :
  contains x a = false -> index x (a ++ x :: b) = List.length a.
Proof.
  induction a as [|y a IH]; simpl; intros H.
  - rewrite str_eqb_refl. reflexivity.
  - apply orb_false_iff in H as [H1 H2].
    rewrite str_eqb_sym, H1, IH by assumption. reflexivity.
Qed.

Lemma slice_prefix (a b : list pystr) :
  slice (a ++ b) 0 (List.length a) = a.
Proof.
  unfold slice. simpl. rewrite Nat.sub_0_r, firstn_app, Nat.sub_diag.
  rewrite firstn_all. simpl. apply app_nil_r.
Qed.

Lemma skipn_past (a rest : list pystr) (x : pystr) :
  skipn (List.length a + 1) (a ++ x :: rest) = rest.
Proof. induction a as [|z a IH]; simpl; auto. Qed.

Lemma slice_body (a b : list pystr) (x y : pystr) :
  slice (a ++ x :: b ++ [y]) (List.length a + 1)
        (List.length (a ++ x :: b ++ [y]) - 1) = b.
Proof.
  unfold slice. rewrite skipn_past.
  replace (List.length (a ++ x :: b ++ [y]) - 1 - (List.length a + 1))
    with (List.length b)
    by (rewrite length_app; simpl; rewrite length_app; simpl; lia).
  rewrite firstn_app, Nat.sub_diag, firstn_all. simpl. apply app_nil_r.
Qed.

Lemma no_reserved_no_bracket (op : pystr) :
  no_reserved_segments op = true -> contains (py "[") (segments op) = false.
Proof.
  unfold no_reserved_segments, contains.
  induction (segments op) as [|p l IH]; cbn [forallb existsb]; auto.
  rewrite andb_true_iff. intros [Hp Hl]. rewrite (IH Hl).
  unfold reserved in Hp. rewrite negb_true_iff in Hp.
  apply orb_false_iff in Hp as [Hp _]. apply orb_false_iff in Hp as [Hp _].
  rewrite str_eqb_sym, Hp. reflexivity.
Qed.

Lemma scan_step_inside (p : pystr) (chunks current : list pystr) (depth : Z) :
  (str_eqb p (py ",") && (depth =? 0)%Z)%bool = false ->
  scan_step (chunks, current, depth) p =
  (chunks, current ++ [p], depth_after depth [p]).
Proof.
  intros H. unfold scan_step. rewrite H. cbn [depth_after].
  destruct (str_eqb p (py "[")); [reflexivity|].
  destruct (str_eqb p (py "]")); reflexivity.
Qed.

Lemma commas_inside_cons (p : pystr) (segs : list pystr) (depth : Z) :
  commas_inside depth (p :: segs) = true ->
  (str_eqb p (py ",") && (depth =? 0)%Z)%bool = false /\
  commas_inside (depth_after depth [p]) segs = true.
Proof.
  cbn [commas_inside depth_after].
  destruct (str_eqb p (py ",")) eqn:Ec.
  - rewrite andb_true_iff, Z.ltb_lt. intros [Hd H].
    apply str_eqb_eq in Ec. subst p.
    change (str_eqb (py ",") (py "[")) with false.
    change (str_eqb (py ",") (py "]")) with false.
    cbv iota. split; auto.
    apply andb_false_iff. right. apply Z.eqb_neq. lia.
  - intros H. split; auto.
    destruct (str_eqb p (py "[")); auto.
    destruct (str_eqb p (py "]")); auto.
Qed.

Lemma depth_after_cons (p : pystr) (segs : list pystr) (depth : Z) :
  depth_after depth (p :: segs) = depth_after (depth_after depth [p]) segs.
Proof.
  cbn [depth_after].
  destruct (str_eqb p (py "[")); auto.
  destruct (str_eqb p (py "]")); auto.
Qed.

(** Inside an argument the loop only accumulates. *)
Lemma scan_inside (segs : list pystr) :
  forall (chunks current : list pystr) (depth : Z),
  commas_inside depth segs = true ->
  fold_left scan_step segs (chunks, current, depth) =
  (chunks, current ++ segs, depth_after depth segs).
Proof.
  induction segs as [|p segs IH]; intros chunks current depth H.
  - simpl. rewrite app_nil_r. reflexivity.
  - apply commas_inside_cons in H as [H1 H2].
    cbn [fold_left]. rewrite (scan_step_inside _ _ _ _ H1).
    rewrite (IH _ _ _ H2), <- app_assoc, (depth_after_cons p segs).
    reflexivity.
Qed.

Lemma chunk_of_segments (a : pystr) :
  wf_uri a = true -> chunk_of (segments a) = a.
Proof.
  intros H. unfold chunk_of, segments.
  change (py "/") with [SLASH]. rewrite join_split, strip_idem.
  apply (wf_uri_strip a H).
Qed.

Lemma wf_arg_parts (a : pystr) :
  wf_arg a = true ->
  wf_uri a = true /\ commas_inside 0 (segments a) = true /\
  depth_after 0 (segments a) = 0%Z.
Proof.
  unfold wf_arg. rewrite !andb_true_iff, Z.eqb_eq. tauto.
Qed.

Lemma segments_nonempty (a : pystr) : segments a <> [].
Proof. apply split_nonempty. Qed.

(** After the first argument, each comma at depth 0 closes a chunk. *)
Lemma scan_args (rest : list pystr) :
  forall (ch cur chunks current : list pystr) (depth : Z),
  cur <> [] -> Forall (fun a => wf_arg a = true) rest ->
  fold_left scan_step
    (flat_map segments (flat_map (fun b => [py ","; b]) rest))
    (ch, cur, 0%Z) = (chunks, current, depth) ->
  match current with
  | [] => chunks
  | _ :: _ => chunks ++ [chunk_of current]
  end = ch ++ chunk_of cur :: rest.
Proof.
  induction rest as [|b rest IH]; intros ch cur chunks current depth Hc Hr E.
  - simpl in E. injection E as <- <- <-.
    destruct cur; [congruence|reflexivity].
  - inversion Hr as [|? ? Hb Hrest]; subst.
    apply wf_arg_parts in Hb as (Hu & Hi & Hd).
    change (flat_map segments (flat_map (fun b => [py ","; b]) (b :: rest)))
      with (py "," :: segments b ++
            flat_map segments (flat_map (fun b => [py ","; b]) rest)) in E.
    cbn [fold_left] in E.
    change (scan_step (ch, cur, 0%Z) (py ","))
      with (ch ++ [chunk_of cur], @nil pystr, 0%Z) in E.
    rewrite fold_left_app, (scan_inside _ _ _ _ Hi), Hd in E.
    cbn [app] in E.
    apply IH in E; auto using segments_nonempty.
    rewrite E, (chunk_of_segments b Hu), <- app_assoc. reflexivity.
Qed.

(** The loop over the pieces of a serialized argument list. *)
Lemma scan_body (args chunks current : list pystr) (depth : Z) :
  Forall (fun a => wf_arg a = true) args ->
  fold_left scan_step (flat_map segments (comma_separated args))
    ([], [], 0%Z) = (chunks, current, depth) ->
  match current with
  | [] => chunks
  | _ :: _ => chunks ++ [chunk_of current]
  end = args.
Proof.
  intros Hargs E. destruct Hargs as [|a rest Ha Hrest].
  - simpl in E. injection E as <- <- <-. reflexivity.
  - apply wf_arg_parts in Ha as (Hu & Hi & Hd).
    change (flat_map segments (comma_separated (a :: rest)))
      with (segments a ++
            flat_map segments (flat_map (fun b => [py ","; b]) rest)) in E.
    rewrite fold_left_app, (scan_inside _ _ _ _ Hi), Hd in E.
    cbn [app] in E.
    apply scan_args in E; auto using segments_nonempty.
    rewrite E, (chunk_of_segments a Hu). reflexivity.
Qed.

Lemma wf_op_parts (op : pystr) :
  wf_op op = true -> wf_uri op = true /\ no_reserved_segments op = true.
Proof. unfold wf_op. apply andb_true_iff. Qed.

(** The parser inverts the serializer. *)
Lemma parse_compound (op : pystr) (args : list pystr) :
  wf_uri op = true ->
  contains (py "[") (segments op) = false ->
  Forall (fun a => wf_arg a = true) args ->
  parse_compound_uri (compound_uri op args) = Ok (op, args).
Proof.
  intros Hop Hb Hargs. unfold parse_compound_uri.
  fold (uri_pieces (compound_uri op args)).
  rewrite (uri_pieces_compound op args Hop).
  rewrite last_piece_closing, contains_middle.
  change (str_eqb (py "]") (py "]")) with true. cbn [negb].
  rewrite (index_middle _ _ _ Hb), slice_prefix, slice_body.
  rewrite (join_uri_segments op Hop).
  destruct (fold_left scan_step (flat_map segments (comma_separated args))
              ([], [], 0%Z)) as [[chunks current] depth] eqn:E.
  rewrite (scan_body _ _ _ _ Hargs E). reflexivity.
Qed.

(** ** Compound URIs are argument URIs *)

Lemma depth_after_app (s t : list pystr) :
  forall d, depth_after d (s ++ t) = depth_after (depth_after d s) t.
Proof.
  induction s as [|p s IH]; intros d; auto.
  rewrite <- app_comm_cons, depth_after_cons, IH, <- depth_after_cons.
  reflexivity.
Qed.

Lemma commas_inside_app (s t : list pystr) :
  forall d, commas_inside d (s ++ t) =
            commas_inside d s && commas_inside (depth_after d s) t.
Proof.
  induction s as [|p s IH]; intros d; auto.
  rewrite <- app_comm_cons. cbn [commas_inside depth_after].
  destruct (str_eqb p (py ",")) eqn:Ec.
  - apply str_eqb_eq in Ec. subst p.
    change (str_eqb (py ",") (py "[")) with false.
    change (str_eqb (py ",") (py "]")) with false. cbv iota.
    rewrite IH, andb_assoc. reflexivity.
  - destruct (str_eqb p (py "[")); [apply IH|].
    destruct (str_eqb p (py "]")); apply IH.
Qed.

Lemma depth_after_shift (s : list pystr) :
  forall d, depth_after d s = (d + depth_after 0 s)%Z.
Proof.
  induction s as [|p s IH]; intros d; cbn [depth_after]; [lia|].
  destruct (str_eqb p (py "[")).
  - rewrite (IH (d + 1)%Z), (IH (0 + 1)%Z). lia.
  - destruct (str_eqb p (py "]")).
    + rewrite (IH (d - 1)%Z), (IH (0 - 1)%Z). lia.
    + apply IH.
Qed.

Lemma commas_inside_mono (s : list pystr) :
  forall d d', (d <= d')%Z ->
  commas_inside d s = true -> commas_inside d' s = true.
Proof.
  induction s as [|p s IH]; intros d d' Hd; cbn [commas_inside]; auto.
  destruct (str_eqb p (py ",")).
  - rewrite !andb_true_iff, !Z.ltb_lt. intros [H1 H2]. split; [lia|].
    apply (IH d d'); assumption.
  - destruct (str_eqb p (py "[")); [apply IH; lia|].
    destruct (str_eqb p (py "]")); apply IH; lia.
Qed.

Lemma plain_segments (segs : list pystr) :
  forallb (fun p => negb (reserved p)) segs = true ->
  forall d, commas_inside d segs = true /\ depth_after d segs = d.
Proof.
  induction segs as [|p segs IH]; cbn [forallb commas_inside depth_after];
    auto.
  rewrite andb_true_iff, negb_true_iff. unfold reserved.
  rewrite !orb_false_iff. intros [[[H1 H2] H3] H] d.
  rewrite H1, H2, H3. apply IH, H.
Qed.

(** An argument run entered at depth 1 keeps its commas inside and comes
    back to depth 1. *)
Lemma arg_at_depth_1 (a : pystr) :
  wf_arg a = true ->
  commas_inside 1 (segments a) = true /\ depth_after 1 (segments a) = 1%Z.
Proof.
  intros H. apply wf_arg_parts in H as (_ & Hi & Hd). split.
  - apply (commas_inside_mono _ 0%Z 1%Z); [lia|assumption].
  - rewrite depth_after_shift, Hd. reflexivity.
Qed.

Lemma rest_at_depth_1 (rest : list pystr) :
  Forall (fun a => wf_arg a = true) rest ->
  commas_inside 1
    (flat_map segments (flat_map (fun b => [py ","; b]) rest)) = true /\
  depth_after 1
    (flat_map segments (flat_map (fun b => [py ","; b]) rest)) = 1%Z.
Proof.
  induction 1 as [|b rest Hb _ [IH1 IH2]]; [split; reflexivity|].
  apply arg_at_depth_1 in Hb as [Hb1 Hb2].
  change (flat_map segments (flat_map (fun b => [py ","; b]) (b :: rest)))
    with (py "," :: segments b ++
          flat_map segments (flat_map (fun b => [py ","; b]) rest)).
  split.
  - change (commas_inside 1 (py "," :: ?l)) with (commas_inside 1 l).
    rewrite commas_inside_app, Hb1, Hb2, IH1. reflexivity.
  - change (depth_after 1 (py "," :: ?l)) with (depth_after 1 l).
    rewrite depth_after_app, Hb2, IH2. reflexivity.
Qed.

Lemma body_at_depth_1 (args : list pystr) :
  Forall (fun a => wf_arg a = true) args ->
  commas_inside 1 (flat_map segments (comma_separated args)) = true /\
  depth_after 1 (flat_map segments (comma_separated args)) = 1%Z.
Proof.
  destruct 1 as [|a rest Ha Hrest]; [split; reflexivity|].
  apply arg_at_depth_1 in Ha as [Ha1 Ha2].
  apply rest_at_depth_1 in Hrest as [Hr1 Hr2].
  change (flat_map segments (comma_separated (a :: rest)))
    with (segments a ++
          flat_map segments (flat_map (fun b => [py ","; b]) rest)).
  rewrite commas_inside_app, depth_after_app, Ha1, Ha2, Hr1, Hr2.
  split; reflexivity.
Qed.

(** A compound URI is a URI, and its segments are the pieces the parser
    sees. *)
Lemma compound_uri_wf (op : pystr) (args : list pystr) :
  wf_uri op = true ->
  wf_uri (compound_uri op args) = true /\
  segments (compound_uri op args) = uri_pieces (compound_uri op args).
Proof.
  intros Hop. unfold segments, uri_pieces, strip.
  rewrite compound_uri_items, join_uri_unfold.
  set (l := map (strip is_slash)
              (op :: py "[" :: comma_separated args ++ [py "]"])).
  assert (Hh : head_free is_slash (join [SLASH] l) = true).
  { apply head_free_join; [apply strip_head_free|].
    right. apply wf_uri_strip_nonempty, Hop. }
  assert (Hl : exists pre, join [SLASH] l = pre ++ py "]").
  { destruct (join_last SLASH l) as [pre E]; [discriminate|].
    exists pre. rewrite E. f_equal. unfold l. rewrite last_map_strip.
    change (op :: py "[" :: comma_separated args ++ [py "]"])
      with ((op :: py "[" :: comma_separated args) ++ [py "]"]).
    rewrite last_last. reflexivity. }
  destruct Hl as [pre E].
  assert (Hf : forall h, last_free is_slash (h ++ join [SLASH] l) = true).
  { intros h. rewrite E, app_assoc.
    change (py "]") with (RBRACKET :: []). rewrite last_free_app_cons.
    reflexivity. }
  split.
  - unfold wf_uri. rewrite ends_with_slash_last_free.
    change (SLASH :: join [SLASH] l) with ([SLASH] ++ join [SLASH] l) at 2.
    rewrite Hf. cbn [begins_with_single_slash]. rewrite Hh. reflexivity.
  - change (lstrip is_slash (SLASH :: ?x)) with (lstrip is_slash x).
    rewrite (lstrip_id _ _ Hh), rstrip_id; [reflexivity|apply (Hf [])].
Qed.

(** A compound URI over argument URIs is an argument URI. *)
Lemma compound_uri_wf_arg (op : pystr) (args : list pystr) :
  wf_op op = true -> Forall (fun a => wf_arg a = true) args ->
  wf_arg (compound_uri op args) = true.
Proof.
  intros Hop Hargs. apply wf_op_parts in Hop as [Hu Hn].
  destruct (compound_uri_wf op args Hu) as [Hw Hs].
  unfold wf_arg. rewrite Hw, Hs, (uri_pieces_compound op args Hu).
  destruct (plain_segments _ Hn 0%Z) as [P1 P2].
  destruct (body_at_depth_1 args Hargs) as [B1 B2].
  rewrite commas_inside_app, depth_after_app, P1, P2.
  change (commas_inside 0 (py "[" :: ?l)) with (commas_inside 1 l).
  change (depth_after 0 (py "[" :: ?l)) with (depth_after 1 l).
  rewrite commas_inside_app, depth_after_app, B1, B2. reflexivity.
Qed.

(** A URI without reserved segments is an argument URI. *)
Lemma plain_uri_wf_arg (u : pystr) : wf_op u = true -> wf_arg u = true.
Proof.
  intros H. apply wf_op_parts in H as [Hu Hn].
  destruct (plain_segments _ Hn 0%Z) as [P1 P2].
  unfold wf_arg. rewrite Hu, P1, P2. reflexivity.
Qed.

Example parse_compound_uri_doc1 :
  parse_compound_uri (py "/nothing/[/]") = Ok (py "/nothing", []).
Proof. reflexivity. Qed.

Example parse_compound_uri_doc2 :
  parse_compound_uri (py "/a/[/r/CapableOf/,/c/en/cat/,/c/en/sleep/]") =
  Ok (py "/a", [py "/r/CapableOf"; py "/c/en/cat"; py "/c/en/sleep"]).
Proof. reflexivity. Qed.

(** C1, as stated, fails: an operator written without its leading slash has
    no reserved segment, and comes back with the slash [join_uri] put before
    it.  Here [compound_uri('and', [])] is ['/and/[/]'], which parses to
    [('/and', [])]. *)
Lemma round_trip_bare_operator :
  no_reserved_segments (py "and") = true /\
  compound_uri (py "and") [] = py "/and/[/]" /\
  parse_compound_uri (compound_uri (py "and") []) = Ok (py "/and", []) /\
  parse_compound_uri (compound_uri (py "and") []) <> Ok (py "and", []).
Proof. repeat split; try reflexivity. discriminate. Qed.

(** An argument with a comma segment outside brackets is split in two. *)
Remark round_trip_bare_comma :
  wf_uri (py "/x/,/y") = true /\
  parse_compound_uri (compound_uri (py "/op") [py "/x/,/y"]) =
  Ok (py "/op", [py "/x"; py "/y"]).
Proof. split; reflexivity. Qed.

(** C1, amended: for an operator URI without reserved segments and argument
    URIs whose comma segments lie inside brackets that close, parsing the
    serialized compound gives the operator and the arguments back; the
    compound is again such an argument, and as an argument of another compound
    it comes back whole. *)
Theorem compound_round_trip (op : pystr) (args : list pystr) :
  wf_op op = true -> Forall (fun a => wf_arg a = true) args ->
  parse_compound_uri (compound_uri op args) = Ok (op, args) /\
  wf_arg (compound_uri op args) = true /\
  (forall (op' : pystr) (before after : list pystr),
     wf_op op' = true ->
     Forall (fun a => wf_arg a = true) before ->
     Forall (fun a => wf_arg a = true) after ->
     parse_compound_uri
       (compound_uri op' (before ++ compound_uri op args :: after)) =
     Ok (op', before ++ compound_uri op args :: after)).
Proof.
  intros Hop Hargs.
  assert (Hc : wf_arg (compound_uri op args) = true)
    by (apply compound_uri_wf_arg; assumption).
  assert (R : forall o l, wf_op o = true ->
            Forall (fun a => wf_arg a = true) l ->
            parse_compound_uri (compound_uri o l) = Ok (o, l)).
  { intros o l Ho Hl. apply wf_op_parts in Ho as [Hu Hn].
    apply parse_compound; auto using no_reserved_no_bracket. }
  repeat split; auto.
  intros op' before after Hop' Hb Ha. apply R; auto.
  apply Forall_app. split; auto.
Qed.

Lemma compound_round_trip_witness :
  parse_compound_uri
    (compound_uri (py "/or") [py "/and/[/s/x/,/s/y/]"; py "/s/z"]) =
  Ok (py "/or", [py "/and/[/s/x/,/s/y/]"; py "/s/z"]).
Proof.
  apply (compound_round_trip (py "/or") [py "/and/[/s/x/,/s/y/]"; py "/s/z"]).
  - reflexivity.
  - repeat constructor.
Defined.

Lemma contains_In (x : pystr) (l : list pystr) :
  contains x l = true <-> In x l.
Proof.
  unfold contains. rewrite existsb_exists. split.
  - intros (y & Hy & E). apply str_eqb_eq in E. subst. assumption.
  - intros H. exists x. split; [assumption|apply str_eqb_refl].
Qed.

(** C6: [parse_compound_uri] raises exactly when the last piece is not a
    closing bracket, which is tested first and reported as a URI that must
    end with ['/]'], or no piece is an opening bracket; otherwise it returns
    an operator and a list of arguments. *)
Theorem parse_compound_uri_errors (uri : pystr) :
  (last_piece (uri_pieces uri) <> py "]" ->
   parse_compound_uri uri =
   Raise (ValueError "Compound URIs must end with /]")) /\
  (last_piece (uri_pieces uri) = py "]" -> ~ In (py "[") (uri_pieces uri) ->
   parse_compound_uri uri =
   Raise (ValueError
     "Compound URIs must contain /[/ at the beginning of the argument list"))
  /\
  (last_piece (uri_pieces uri) = py "]" -> In (py "[") (uri_pieces uri) ->
   exists op args, parse_compound_uri uri = Ok (op, args)) /\
  ((exists e, parse_compound_uri uri = Raise e) <->
   (last_piece (uri_pieces uri) <> py "]" \/
    ~ In (py "[") (uri_pieces uri))).
Proof.
  unfold parse_compound_uri. fold (uri_pieces uri).
  destruct (str_eqb (last_piece (uri_pieces uri)) (py "]")) eqn:El;
    [apply str_eqb_eq in El|apply str_eqb_neq in El]; cbn [negb].
  - destruct (contains (py "[") (uri_pieces uri)) eqn:Ec; cbn [negb].
    + apply contains_In in Ec.
      destruct (fold_left scan_step _ _) as [[chunks current] depth].
      repeat split; intros; try tauto; try (repeat eexists; reflexivity).
      destruct H as [e He]. discriminate He.
    + assert (Hn : ~ In (py "[") (uri_pieces uri)).
      { intros H. apply contains_In in H. congruence. }
      repeat split; intros; try tauto; try (repeat eexists; reflexivity).
  - repeat split; intros; try tauto; try (repeat eexists; reflexivity).
Qed.

(** ** The arguments the parser returns *)

Lemma chunk_of_shape (current : list pystr) :
  begins_with_single_slash (chunk_of current) = true /\
  (ends_with_slash (chunk_of current) = true -> chunk_of current = py "/").
Proof.
  unfold chunk_of. change (py "/") with [SLASH].
  set (s := strip is_slash (join [SLASH] current)).
  assert (Hh : head_free is_slash s = true) by apply strip_head_free.
  assert (Hl : last_free is_slash s = true) by apply strip_last_free.
  split.
  - cbn [app begins_with_single_slash]. rewrite Hh. reflexivity.
  - rewrite ends_with_slash_last_free, negb_true_iff.
    destruct s as [|c t]; [reflexivity|].
    rewrite last_free_app_cons, Hl. discriminate.
Qed.

Lemma scan_step_chunks (P : pystr -> Prop) (piece : pystr)
      (chunks current : list pystr) (depth : Z) :
  (forall c, P (chunk_of c)) -> Forall P chunks ->
  Forall P (fst (fst (scan_step (chunks, current, depth) piece))).
Proof.
  intros HP Hc. unfold scan_step.
  destruct (str_eqb piece (py ",") && (depth =? 0)%Z).
  - cbn [fst]. apply Forall_app. split; [assumption|].
    constructor; [apply HP|constructor].
  - destruct (str_eqb piece (py "[")); [assumption|].
    destruct (str_eqb piece (py "]")); assumption.
Qed.

Lemma scan_chunks (P : pystr -> Prop) (pieces : list pystr) :
  (forall c, P (chunk_of c)) ->
  forall st, Forall P (fst (fst st)) ->
  Forall P (fst (fst (fold_left scan_step pieces st))).
Proof.
  intros HP. induction pieces as [|p pieces IH]; intros st Hst; auto.
  cbn [fold_left]. apply IH. destruct st as [[chunks current] depth].
  apply scan_step_chunks; assumption.
Qed.

Example parse_compound_uri_empty_argument :
  parse_compound_uri (py "/op/[/,/x/]") = Ok (py "/op", [py "/"; py "/x"]).
Proof. reflexivity. Qed.

(** C10: every argument [parse_compound_uri] returns begins with exactly one
    slash and ends with a slash only when it is the string ['/']. *)
Theorem parsed_arguments_shape (uri op : pystr) (args : list pystr) :
  parse_compound_uri uri = Ok (op, args) ->
  Forall (fun a => begins_with_single_slash a = true /\
                   (ends_with_slash a = true -> a = py "/")) args.
Proof.
  unfold parse_compound_uri.
  destruct (negb (str_eqb _ _)); [discriminate|].
  destruct (negb (contains _ _)); [discriminate|].
  match goal with
  | |- context [fold_left scan_step ?l ?st] =>
      pose proof (scan_chunks
        (fun a => begins_with_single_slash a = true /\
                  (ends_with_slash a = true -> a = py "/"))
        l chunk_of_shape st (Forall_nil _)) as H;
      destruct (fold_left scan_step l st) as [[chunks current] depth]
  end.
  cbn [fst] in H. intros E. injection E as _ <-.
  destruct current as [|c current]; [assumption|].
  apply Forall_app. split; [assumption|].
  constructor; [apply chunk_of_shape|constructor].
Qed.

Lemma parsed_arguments_shape_witness :
  Forall (fun a => begins_with_single_slash a = true /\
                   (ends_with_slash a = true -> a = py "/"))
         [py "/"; py "/x"].
Proof.
  apply (parsed_arguments_shape (py "/op/[/,/x/]") (py "/op")).
  reflexivity.
Defined.

(** * The builders *)

Lemma mapM_as_str (sources : list pystr) :
  mapM as_str (map PStr sources) = Ok sources.
Proof.
  induction sources as [|s l IH]; cbn [map mapM as_str bind]; auto.
  rewrite IH. reflexivity.
Qed.

Example conjunction_uri_doc :
  conjunction_uri [PStr (py "/s/contributor/omcs/dev");
                   PStr (py "/rule/some_kind_of_parser")] =
  Ok (PStr (py "/and/[/s/contributor/omcs/dev/,/rule/some_kind_of_parser/]")).
Proof. reflexivity. Qed.

(** C7: [conjunction_uri] and [disjunction_uri] raise on no source, return a
    single source as it is, and on two or more sources return the compound
    URI of ['/and'], respectively ['/or'], over the sources. *)
Theorem junction_contract (s1 s2 : pystr) (more : list pystr) :
  conjunction_uri [] =
    Raise (ValueError "Conjunctions of 0 things are not allowed") /\
  disjunction_uri [] =
    Raise (ValueError "Disjunctions of 0 things are not allowed") /\
  conjunction_uri [PStr s1] = Ok (PStr s1) /\
  disjunction_uri [PStr s1] = Ok (PStr s1) /\
  conjunction_uri (map PStr (s1 :: s2 :: more)) =
    Ok (PStr (compound_uri (py "/and") (s1 :: s2 :: more))) /\
  disjunction_uri (map PStr (s1 :: s2 :: more)) =
    Ok (PStr (compound_uri (py "/or") (s1 :: s2 :: more))) /\
  disjunction_uri [PStr (py "/s/x"); PStr (py "/s/y")] =
    Ok (PStr (py "/or/[/s/x/,/s/y/]")).
Proof.
  repeat split.
  - change (map PStr (s1 :: s2 :: more))
      with (PStr s1 :: PStr s2 :: map PStr more).
    unfold conjunction_uri.
    change (PStr s1 :: PStr s2 :: map PStr more)
      with (map PStr (s1 :: s2 :: more)).
    rewrite mapM_as_str. reflexivity.
  - change (map PStr (s1 :: s2 :: more))
      with (PStr s1 :: PStr s2 :: map PStr more).
    unfold disjunction_uri.
    change (PStr s1 :: PStr s2 :: map PStr more)
      with (map PStr (s1 :: s2 :: more)).
    rewrite mapM_as_str. reflexivity.
Qed.

Lemma mapM_single_conjunction (l : list pyval) :
  mapM (fun sublist => conjunction_uri [sublist]) l = Ok l.
Proof.
  induction l as [|v l IH]; simpl in *; auto.
  rewrite IH. reflexivity.
Qed.

Lemma and_or_tree_value (list_of_lists : list pyval) :
  and_or_tree list_of_lists = Ok (PList list_of_lists).
Proof.
  unfold and_or_tree. rewrite mapM_single_conjunction. reflexivity.
Qed.

Lemma conjunction_uri_is_str (sources : list pyval) (v : pyval) :
  forallb is_str sources = true ->
  conjunction_uri sources = Ok v -> is_str v = true.
Proof.
  destruct sources as [|a [|b l]]; cbn [conjunction_uri forallb].
  - discriminate.
  - rewrite andb_true_r. intros H E. injection E as <-. exact H.
  - intros _. destruct (mapM as_str (a :: b :: l)); cbn [bind]; intros E.
    + injection E as <-. reflexivity.
    + discriminate.
Qed.

Lemma disjunction_uri_is_str (sources : list pyval) (v : pyval) :
  forallb is_str sources = true ->
  disjunction_uri sources = Ok v -> is_str v = true.
Proof.
  destruct sources as [|a [|b l]]; cbn [disjunction_uri forallb].
  - discriminate.
  - rewrite andb_true_r. intros H E. injection E as <-. exact H.
  - intros _. destruct (mapM as_str (a :: b :: l)); cbn [bind]; intros E.
    + injection E as <-. reflexivity.
    + discriminate.
Qed.

Lemma forallb_is_str_map (l : list pystr) : forallb is_str (map PStr l) = true.
Proof. induction l as [|s l IH]; cbn [map forallb is_str andb]; auto. Qed.

Lemma conjunctions_are_str (list_of_lists : list (list pystr)) :
  forall ands,
  mapM (fun sublist => conjunction_uri (map PStr sublist)) list_of_lists
  = Ok ands ->
  forallb is_str ands = true.
Proof.
  induction list_of_lists as [|l rest IH]; cbn [mapM]; intros ands E.
  - injection E as <-. reflexivity.
  - destruct (conjunction_uri (map PStr l)) as [v|e] eqn:Ev; cbn [bind] in E;
      [|discriminate].
    destruct (mapM _ rest) as [vs|e]; cbn [bind] in E; [|discriminate].
    injection E as <-. cbn [forallb].
    rewrite (conjunction_uri_is_str _ _ (forallb_is_str_map l) Ev).
    apply IH. reflexivity.
Qed.

(** What the specification describes is a string whenever it is a value. *)
Lemma and_or_tree_spec_is_str (list_of_lists : list (list pystr)) (v : pyval) :
  and_or_tree_spec list_of_lists = Ok v -> is_str v = true.
Proof.
  unfold and_or_tree_spec.
  destruct (mapM _ list_of_lists) as [ands|e] eqn:E; cbn [bind];
    [|discriminate].
  apply disjunction_uri_is_str, (conjunctions_are_str _ _ E).
Qed.

(** C3 does not hold of the code: [and_or_tree] hands each sublist, and then
    the list of results, over as one positional argument, so both builders
    take their one-source branch and the call returns a list equal to its
    argument, where the claim has the string
    [disjunction_uri(conjunction_uri(...), ...)].  The two never agree. *)
Theorem and_or_tree_returns_its_argument (list_of_lists : list (list pystr)) :
  and_or_tree (lists_value list_of_lists)
  = Ok (PList (lists_value list_of_lists)) /\
  and_or_tree (lists_value list_of_lists)
  <> and_or_tree_spec list_of_lists /\
  and_or_tree (lists_value [[py "/s/x"; py "/s/y"]]) =
    Ok (PList [PList [PStr (py "/s/x"); PStr (py "/s/y")]]) /\
  and_or_tree_spec [[py "/s/x"; py "/s/y"]] =
    Ok (PStr (py "/and/[/s/x/,/s/y/]")) /\
  and_or_tree_spec [[py "/s/x"; py "/s/y"]; [py "/s/z"]] =
    Ok (PStr (py "/or/[/and/[/s/x/,/s/y/]/,/s/z/]")).
Proof.
  split; [apply and_or_tree_value|].
  split; [|repeat split].
  rewrite and_or_tree_value. intros E. symmetry in E.
  apply and_or_tree_spec_is_str in E. discriminate E.
Qed.

(** C2 does not hold of the code: [assertion_uri] has no statement after its
    docstring and returns [None] on every call, where the docstring and the
    claim have [compound_uri('/a', [rel] + args)]. *)
Theorem assertion_uri_returns_none (rel : pystr) (args : list pystr) :
  assertion_uri rel args = None /\
  assertion_uri rel args <> Some (compound_uri (py "/a") (rel :: args)) /\
  compound_uri (py "/a")
    (py "/r/CapableOf" :: [py "/c/en/cat"; py "/c/en/sleep"]) =
  py "/a/[/r/CapableOf/,/c/en/cat/,/c/en/sleep/]".
Proof. repeat split. discriminate. Qed.

(** * [concept_uri] *)

Example concept_uri_doc1 :
  concept_uri no_repair ascii_lower (py "en") (py "cat") None None =
  Ok (py "/c/en/cat").
Proof. reflexivity. Qed.

Example concept_uri_doc2 :
  concept_uri no_repair ascii_lower (py "en") (py "cat") (Some (py "n")) None =
  Ok (py "/c/en/cat/n").
Proof. reflexivity. Qed.

Example concept_uri_doc3 :
  concept_uri no_repair ascii_lower (py "en") (py "cat")
    (Some (py "n")) (Some (py "feline")) =
  Ok (py "/c/en/cat/n/feline").
Proof. reflexivity. Qed.

Example concept_uri_doc4 :
  concept_uri no_repair ascii_lower (py "en") (py "cat")
    None (Some (py "feline")) =
  Raise (ValueError "Disambiguated concepts must have a part of speech").
Proof. reflexivity. Qed.

(** C8: [concept_uri] raises exactly when a disambiguation comes without a
    part of speech; otherwise it joins ['/c'], the language as given, the
    normalized text, the part of speech as given if there is one, and the
    normalized disambiguation if there is one. *)
Theorem concept_uri_contract (fix_text lower : pystr -> pystr)
        (lang text : pystr) (pos disambiguation : option pystr) :
  ((exists e,
      concept_uri fix_text lower lang text pos disambiguation = Raise e) <->
   (disambiguation <> None /\ pos = None)) /\
  (disambiguation <> None /\ pos = None ->
   concept_uri fix_text lower lang text pos disambiguation =
   Raise (ValueError "Disambiguated concepts must have a part of speech")) /\
  (~ (disambiguation <> None /\ pos = None) ->
   concept_uri fix_text lower lang text pos disambiguation =
   Ok (join_uri
         ([py "/c"; lang; normalize_text fix_text lower text]
          ++ optional_piece pos
          ++ optional_piece
               (option_map (normalize_text fix_text lower) disambiguation)))).
Proof.
  destruct pos as [pos|], disambiguation as [d|]; cbn [concept_uri];
    repeat split; intros;
    try reflexivity;
    try (exfalso; tauto);
    try discriminate;
    try (repeat eexists; reflexivity);
    repeat match goal with
           | H : exists _, _ |- _ => destruct H
           | H : _ /\ _ |- _ => destruct H
           end;
    try discriminate; try congruence.
  exfalso. apply H. split; [discriminate|reflexivity].
Qed.

(** * [normalize_text] *)

Lemma strip_stripped (p : char -> bool) (s : pystr) :
  head_free p (strip p s) = true /\ last_free p (strip p s) = true.
Proof. split; [apply strip_head_free|apply strip_last_free]. Qed.

Lemma replace_no_space (s : pystr) : ~ In SPACE (replace SPACE UNDERSCORE s).
Proof.
  unfold replace. rewrite in_map_iff. intros (c & E & _).
  destruct (N.eqb_spec c SPACE); [discriminate E|congruence].
Qed.

Lemma replace_absent (s : pystr) :
  ~ In SPACE s -> replace SPACE UNDERSCORE s = s.
Proof.
  induction s as [|c s IH]; cbn [replace map In]; intros H; auto.
  fold (replace SPACE UNDERSCORE s). rewrite IH by tauto.
  destruct (N.eqb_spec c SPACE); [exfalso; auto|reflexivity].
Qed.

Lemma replace_head_free (s : pystr) :
  head_free is_space s = true ->
  head_free is_space (replace SPACE UNDERSCORE s) = true.
Proof.
  destruct s as [|c s]; cbn [replace map head_free]; auto.
  destruct (N.eqb_spec c SPACE); [reflexivity|auto].
Qed.

Lemma replace_stripped (s : pystr) :
  stripped s -> stripped (replace SPACE UNDERSCORE s).
Proof.
  intros [H1 H2]. split; [apply replace_head_free, H1|].
  unfold last_free, replace. rewrite <- map_rev.
  apply replace_head_free, H2.
Qed.

Lemma stripped_strip (s : pystr) : stripped s -> strip is_space s = s.
Proof. intros [H1 H2]. apply strip_id; assumption. Qed.

Section NormalizerFacts.

Variable fix_text : pystr -> pystr.
Variable lower : pystr -> pystr.

(** What the proof uses of the case tables: lowering is idempotent, leaves
    spaces and underscores where they are, and puts no whitespace at either
    end of a string that had none. *)
Hypothesis lower_idempotent : forall s, lower (lower s) = lower s.
Hypothesis lower_replace :
  forall s, lower (replace SPACE UNDERSCORE s)
            = replace SPACE UNDERSCORE (lower s).
Hypothesis lower_stripped : forall s, stripped s -> stripped (lower s).

Lemma normalize_text_stripped (x : pystr) :
  stripped (normalize_text fix_text lower x).
Proof.
  unfold normalize_text.
  apply replace_stripped, lower_stripped, strip_stripped.
Qed.

(** A text whose normalized form needs no repair is normalized once and for
    all. *)
Lemma normalize_text_fixed (x : pystr) :
  fix_text (normalize_text fix_text lower x)
  = normalize_text fix_text lower x ->
  normalize_text fix_text lower (normalize_text fix_text lower x)
  = normalize_text fix_text lower x.
Proof.
  intros Hx. unfold normalize_text at 1. rewrite Hx.
  rewrite (stripped_strip _ (normalize_text_stripped x)).
  unfold normalize_text.
  rewrite lower_replace, lower_idempotent.
  apply replace_absent, replace_no_space.
Qed.

End NormalizerFacts.

(** C9, amended: the result of [normalize_text] holds no space character,
    whatever [fix_text] and [str.lower] do; it has no whitespace at either
    end as soon as lowering puts none there; and normalizing it again changes
    nothing when [fix_text] leaves this one result as it is, given that
    lowering is idempotent, leaves spaces and underscores where they are and
    puts no whitespace at the ends. *)
Theorem normalize_text_idempotent (fix_text lower : pystr -> pystr)
        (x : pystr) :
  ~ In SPACE (normalize_text fix_text lower x) /\
  ((forall s, stripped s -> stripped (lower s)) ->
   stripped (normalize_text fix_text lower x)) /\
  ((forall s, lower (lower s) = lower s) ->
   (forall s, lower (replace SPACE UNDERSCORE s)
              = replace SPACE UNDERSCORE (lower s)) ->
   (forall s, stripped s -> stripped (lower s)) ->
   fix_text (normalize_text fix_text lower x)
   = normalize_text fix_text lower x ->
   normalize_text fix_text lower (normalize_text fix_text lower x)
   = normalize_text fix_text lower x).
Proof.
  split; [apply replace_no_space|]. split.
  - intros Hs. apply (normalize_text_stripped fix_text lower Hs).
  - intros Hi Hr Hs Hx.
    apply (normalize_text_fixed fix_text lower Hi Hr Hs x Hx).
Qed.

(** ** The letters A to Z as an instance of the case tables *)

Lemma is_space_bounds (c : char) :
  is_space c = true -> (c <= 32 \/ 133 <= c)%N.
Proof.
  unfold is_space.
  rewrite !orb_true_iff, !andb_true_iff, !N.leb_le, !N.eqb_eq. lia.
Qed.

Lemma ascii_lower_char_space (c : char) :
  is_space (if ((65 <=? c) && (c <=? 90))%N then (c + 32)%N else c)
  = is_space c.
Proof.
  destruct ((65 <=? c) && (c <=? 90))%N eqn:E; [|reflexivity].
  apply andb_true_iff in E as [E1 E2]. apply N.leb_le in E1, E2.
  destruct (is_space (c + 32)%N) eqn:S1.
  - apply is_space_bounds in S1. lia.
  - destruct (is_space c) eqn:S2; [|reflexivity].
    apply is_space_bounds in S2. lia.
Qed.

Lemma ascii_lower_head_free (s : pystr) :
  head_free is_space (ascii_lower s) = head_free is_space s.
Proof.
  destruct s as [|c s]; cbn [ascii_lower map head_free]; auto.
  rewrite ascii_lower_char_space. reflexivity.
Qed.

Lemma ascii_lower_stripped (s : pystr) : stripped s -> stripped (ascii_lower s).
Proof.
  intros [H1 H2]. split.
  - rewrite ascii_lower_head_free. exact H1.
  - unfold last_free, ascii_lower. rewrite <- map_rev.
    fold (ascii_lower (rev s)). rewrite ascii_lower_head_free. exact H2.
Qed.

Lemma ascii_lower_idempotent (s : pystr) :
  ascii_lower (ascii_lower s) = ascii_lower s.
Proof.
  unfold ascii_lower. rewrite map_map. apply map_ext. intros c.
  destruct ((65 <=? c) && (c <=? 90))%N eqn:E; [|rewrite E; reflexivity].
  apply andb_true_iff in E as [E1 E2]. apply N.leb_le in E1, E2.
  replace ((65 <=? c + 32) && (c + 32 <=? 90))%N with false; [reflexivity|].
  symmetry. apply andb_false_iff. right. apply N.leb_gt. lia.
Qed.

Lemma ascii_lower_replace (s : pystr) :
  ascii_lower (replace SPACE UNDERSCORE s)
  = replace SPACE UNDERSCORE (ascii_lower s).
Proof.
  unfold ascii_lower, replace. rewrite !map_map. apply map_ext. intros c.
  destruct (N.eqb_spec c SPACE) as [->|Hc]; [reflexivity|].
  destruct ((65 <=? c) && (c <=? 90))%N eqn:E.
  - apply andb_true_iff in E as [E1 E2]. apply N.leb_le in E1, E2.
    destruct (N.eqb_spec (c + 32)%N SPACE) as [H|_]; [|reflexivity].
    unfold SPACE in H. lia.
  - destruct (N.eqb_spec c SPACE); [contradiction|reflexivity].
Qed.

Example normalize_text_doc1 :
  normalize_text no_repair ascii_lower (py " cat") = py "cat".
Proof. reflexivity. Qed.

Example normalize_text_doc2 :
  normalize_text no_repair ascii_lower (py "Italian supercat")
  = py "italian_supercat".
Proof. reflexivity. Qed.

(** C9, as stated, fails when its assumption is read as it is glossed, a
    repair that is the identity on its own output: [append_capital] is one,
    and with it ['b'] normalizes to ['ba'] and ['ba'] to ['baa']. *)
Lemma idempotent_repair_is_not_enough :
  (forall s, append_capital (append_capital s) = append_capital s) /\
  normalize_text append_capital ascii_lower (py "b") = py "ba" /\
  normalize_text append_capital ascii_lower
    (normalize_text append_capital ascii_lower (py "b")) = py "baa" /\
  normalize_text append_capital ascii_lower
    (normalize_text append_capital ascii_lower (py "b"))
  <> normalize_text append_capital ascii_lower (py "b").
Proof.
  split; [|split; [reflexivity|split; [reflexivity|discriminate]]].
  intros s. unfold append_capital.
  destruct (existsb (N.eqb 65) s) eqn:E; [rewrite E; reflexivity|].
  rewrite existsb_app. cbn [existsb]. rewrite N.eqb_refl, orb_true_r.
  reflexivity.
Qed.

Lemma normalize_text_idempotent_witness :
  ~ In SPACE (normalize_text no_repair ascii_lower (py "  Italian supercat "))
  /\
  stripped (normalize_text no_repair ascii_lower (py "  Italian supercat "))
  /\
  normalize_text no_repair ascii_lower
    (normalize_text no_repair ascii_lower (py "  Italian supercat "))
  = normalize_text no_repair ascii_lower (py "  Italian supercat ").
Proof.
  destruct (normalize_text_idempotent no_repair ascii_lower
              (py "  Italian supercat ")) as (A & B & C).
  split; [exact A|]. split; [exact (B ascii_lower_stripped)|].
  exact (C ascii_lower_idempotent ascii_lower_replace ascii_lower_stripped
           eq_refl).
Defined.

(** * Further properties *)

(** ** Slashes around the pieces *)

Lemma lstrip_repeat (n : nat) (s : pystr) :
  lstrip is_slash (repeat SLASH n ++ s) = lstrip is_slash s.
Proof. induction n as [|n IH]; [reflexivity|exact IH]. Qed.

Lemma rstrip_repeat (n : nat) (s : pystr) :
  rstrip is_slash (s ++ repeat SLASH n) = rstrip is_slash s.
Proof.
  unfold rstrip. rewrite rev_app_distr, rev_repeat, lstrip_repeat.
  reflexivity.
Qed.

Lemma lstrip_app_kept (s t : pystr) :
  lstrip is_slash s <> [] ->
  lstrip is_slash (s ++ t) = lstrip is_slash s ++ t.
Proof.
  induction s as [|c s IH]; cbn [lstrip app]; [congruence|].
  destruct (is_slash c); [exact IH|reflexivity].
Qed.

Lemma lstrip_all (s : pystr) :
  lstrip is_slash s = [] -> s = repeat SLASH (List.length s).
Proof.
  induction s as [|c s IH]; cbn [lstrip]; [reflexivity|].
  destruct (is_slash c) eqn:E; [|discriminate].
  intros H. cbn [List.length repeat]. rewrite <- (IH H).
  apply N.eqb_eq in E. rewrite E. reflexivity.
Qed.

Lemma strip_slashes_around (n m : nat) (p : pystr) :
  strip is_slash (repeat SLASH n ++ p ++ repeat SLASH m) = strip is_slash p.
Proof.
  unfold strip. rewrite lstrip_repeat.
  destruct (lstrip is_slash p) as [|c t] eqn:E.
  - rewrite (lstrip_all p E), <- repeat_app.
    replace (lstrip is_slash (repeat SLASH (List.length p + m)))
      with (@nil char).
    + reflexivity.
    + symmetry. rewrite <- (app_nil_r (repeat _ _)), lstrip_repeat.
      reflexivity.
  - rewrite lstrip_app_kept by (rewrite E; discriminate).
    rewrite E. apply rstrip_repeat.
Qed.

(** X1: slashes put before and after the pieces, any number of them around
    each piece, do not change what [join_uri] returns. *)
Theorem join_uri_ignores_slashes (pieces padded : list pystr) :
  Forall2 (fun p q => exists n m, q = repeat SLASH n ++ p ++ repeat SLASH m)
          pieces padded ->
  join_uri padded = join_uri pieces.
Proof.
  intros H. unfold join_uri. f_equal. f_equal.
  induction H as [|p q pieces padded (n & m & ->) _ IH]; [reflexivity|].
  cbn [map]. rewrite strip_slashes_around, IH. reflexivity.
Qed.

Lemma join_uri_ignores_slashes_witness :
  join_uri [py "/r/"; py "AtLocation/"] = join_uri [py "r"; py "AtLocation"].
Proof.
  apply (join_uri_ignores_slashes [py "r"; py "AtLocation"]
           [py "/r/"; py "AtLocation/"]).
  constructor; [exists 1, 1; reflexivity|].
  constructor; [exists 0, 1; reflexivity|constructor].
Defined.

(** ** Composing [join_uri] *)

Lemma join_app (sep : char) (l1 l2 : list pystr) :
  l1 <> [] -> l2 <> [] ->
  join [sep] (l1 ++ l2) = join [sep] l1 ++ sep :: join [sep] l2.
Proof.
  intros H1 H2. induction l1 as [|x l1 IH]; [congruence|].
  destruct l1 as [|y l1].
  - destruct l2 as [|z l2]; [congruence|]. reflexivity.
  - change ((x :: y :: l1) ++ l2) with (x :: y :: l1 ++ l2).
    rewrite !join_cons2.
    change (y :: l1 ++ l2) with ((y :: l1) ++ l2).
    rewrite IH by discriminate. rewrite <- app_assoc. reflexivity.
Qed.

Lemma join_uri_snoc (l : list pystr) (x : pystr) :
  l <> [] -> join_uri (l ++ [x]) = join_uri l ++ SLASH :: strip is_slash x.
Proof.
  intros H. rewrite !join_uri_unfold, map_app.
  rewrite join_app; [reflexivity| |discriminate].
  destruct l; [congruence|discriminate].
Qed.

(** The joined pieces keep no slash at either end when the first and the last
    piece do not strip to nothing. *)
Lemma join_stripped_free (a : list pystr) :
  a <> [] -> strip is_slash (hd [] a) <> [] ->
  strip is_slash (last a []) <> [] ->
  head_free is_slash (join [SLASH] (map (strip is_slash) a)) = true /\
  last_free is_slash (join [SLASH] (map (strip is_slash) a)) = true.
Proof.
  intros Ha Hh Hl. split.
  - destruct a as [|x a]; [congruence|]. cbn [map].
    apply head_free_join; [apply strip_head_free|]. right. exact Hh.
  - assert (Hm : map (strip is_slash) a <> [])
      by (destruct a; [congruence|discriminate]).
    destruct (join_last SLASH _ Hm) as [pre E].
    rewrite E, last_map_strip.
    destruct (strip is_slash (last a [])) as [|c t] eqn:El; [congruence|].
    rewrite last_free_app_cons, <- El. apply strip_last_free.
Qed.

Lemma strip_slash_cons (s : pystr) :
  head_free is_slash s = true -> last_free is_slash s = true ->
  strip is_slash (SLASH :: s) = s.
Proof.
  intros H1 H2. unfold strip.
  change (lstrip is_slash (SLASH :: s)) with (lstrip is_slash s).
  rewrite (lstrip_id _ _ H1). apply rstrip_id, H2.
Qed.

(** X2: a URI that [join_uri] built can be extended by joining it with more
    pieces, provided its first and last piece did not strip to nothing: the
    result is the join of all the pieces. *)
Theorem join_uri_nested (a b : list pystr) :
  a <> [] -> strip is_slash (hd [] a) <> [] ->
  strip is_slash (last a []) <> [] ->
  join_uri (join_uri a :: b) = join_uri (a ++ b).
Proof.
  intros Ha Hh Hl.
  destruct (join_stripped_free a Ha Hh Hl) as [F1 F2].
  rewrite (join_uri_unfold (join_uri a :: b)). cbn [map].
  rewrite (join_uri_unfold a), (strip_slash_cons _ F1 F2).
  rewrite (join_uri_unfold (a ++ b)), map_app.
  destruct b as [|y b].
  - rewrite app_nil_r. reflexivity.
  - rewrite join_app; [reflexivity| |discriminate].
    destruct a; [congruence|discriminate].
Qed.

Lemma join_uri_nested_witness :
  join_uri [join_uri [py "/c"; py "en"; py "cat"]; py "n"]
  = join_uri ([py "/c"; py "en"; py "cat"] ++ [py "n"]).
Proof.
  apply (join_uri_nested [py "/c"; py "en"; py "cat"] [py "n"]);
    discriminate.
Defined.

Lemma split_none (sep : char) (s : pystr) :
  ~ In sep s -> split sep s = [s].
Proof.
  induction s as [|c s IH]; cbn [split]; intros H; auto.
  destruct (N.eqb_spec c sep) as [->|N]; [exfalso; apply H; left; reflexivity|].
  rewrite IH; [reflexivity|]. intros Hs. apply H. right. exact Hs.
Qed.

Lemma flat_map_split_plain (pieces : list pystr) :
  Forall (fun p => p <> [] /\ ~ In SLASH p) pieces ->
  flat_map (split SLASH) pieces = pieces /\
  map (strip is_slash) pieces = pieces.
Proof.
  induction 1 as [|p l [_ Hp] _ [IH1 IH2]]; [split; reflexivity|].
  cbn [flat_map map]. rewrite IH1, IH2, (split_none SLASH p Hp).
  rewrite (strip_piece p Hp). split; reflexivity.
Qed.

(** X3: when no piece is empty or holds a slash, the URI [join_uri] builds
    begins with one slash and ends with none, and cutting it at its slashes,
    as [parse_compound_uri] does, gives the pieces back. *)
Theorem join_uri_pieces (pieces : list pystr) :
  pieces <> [] ->
  Forall (fun p => p <> [] /\ ~ In SLASH p) pieces ->
  wf_uri (join_uri pieces) = true /\
  uri_pieces (join_uri pieces) = pieces.
Proof.
  intros Hne Hp.
  destruct (flat_map_split_plain pieces Hp) as [Hs Hm].
  assert (Hh : strip is_slash (hd [] pieces) <> []).
  { destruct pieces as [|p l]; [congruence|].
    inversion Hp as [|? ? [Hp1 Hp2] _]; subst.
    cbn [hd]. rewrite (strip_piece p Hp2). exact Hp1. }
  assert (Hl : strip is_slash (last pieces []) <> []).
  { rewrite <- last_map_strip, Hm.
    assert (Hin : In (last pieces []) pieces).
    { destruct pieces as [|p l]; [congruence|].
      destruct (exists_last (l := p :: l)) as (l' & z & E); [discriminate|].
      rewrite E, last_last. apply in_or_app. right. left. reflexivity. }
    rewrite Forall_forall in Hp. apply (Hp _ Hin). }
  destruct (join_stripped_free pieces Hne Hh Hl) as [F1 F2].
  rewrite join_uri_unfold. split.
  - unfold wf_uri. rewrite ends_with_slash_last_free.
    cbn [begins_with_single_slash]. rewrite F1.
    destruct (join [SLASH] (map (strip is_slash) pieces)) as [|c t] eqn:E.
    + exfalso. destruct pieces as [|p l]; [congruence|].
      cbn [map hd] in E, Hh.
      destruct (strip is_slash p) as [|d s'] eqn:Ep; [congruence|].
      destruct (map (strip is_slash) l).
      * discriminate E.
      * rewrite join_cons2 in E. discriminate E.
    + change (SLASH :: c :: t) with ([SLASH] ++ c :: t).
      rewrite last_free_app_cons, F2. reflexivity.
  - unfold uri_pieces.
    change (lstrip is_slash (SLASH :: ?x)) with (lstrip is_slash x).
    rewrite (lstrip_id _ _ F1), split_join.
    + rewrite Hm. exact Hs.
    + destruct pieces; [congruence|discriminate].
Qed.

Lemma join_uri_pieces_witness :
  uri_pieces (join_uri [py "c"; py "en"; py "cat"])
  = [py "c"; py "en"; py "cat"].
Proof.
  apply (join_uri_pieces [py "c"; py "en"; py "cat"]).
  - discriminate.
  - repeat constructor; try discriminate;
      (intros H; cbn in H; repeat destruct H as [H|H]; try discriminate H;
       try exact H).
Defined.

(** ** What the parser sees in a bracketed URI *)

Lemma join_uri_single (a : pystr) :
  join_uri [a] = SLASH :: strip is_slash a.
Proof. reflexivity. Qed.

Lemma strip_join_uri_single (a : pystr) :
  strip is_slash (join_uri [a]) = strip is_slash a.
Proof.
  rewrite join_uri_single.
  apply strip_slash_cons; [apply strip_head_free|apply strip_last_free].
Qed.

Lemma segments_join_uri_single (a : pystr) :
  segments (join_uri [a]) = segments a.
Proof. unfold segments. rewrite strip_join_uri_single. reflexivity. Qed.

(** The pieces of an operator, a bracket, any pieces and a bracket, joined. *)
Lemma uri_pieces_bracketed (op : pystr) (mid : list pystr) :
  uri_pieces (join_uri (op :: py "[" :: mid ++ [py "]"])) =
  leading_pieces op ++ py "[" :: flat_map segments mid ++ [py "]"].
Proof.
  unfold uri_pieces, leading_pieces. rewrite join_uri_unfold.
  change (map (strip is_slash) (op :: py "[" :: mid ++ [py "]"]))
    with (strip is_slash op
            :: py "[" :: map (strip is_slash) (mid ++ [py "]"])).
  rewrite join_cons2.
  assert (Hb : head_free is_slash
            (join [SLASH]
               (py "[" :: map (strip is_slash) (mid ++ [py "]"]))) = true).
  { apply head_free_join; [reflexivity|]. right. discriminate. }
  assert (Hs : split SLASH
            (join [SLASH]
               (py "[" :: map (strip is_slash) (mid ++ [py "]"]))) =
          py "[" :: flat_map segments mid ++ [py "]"]).
  { rewrite split_join by discriminate.
    change (flat_map (split SLASH) (py "[" :: ?l))
      with (py "[" :: flat_map (split SLASH) l).
    rewrite flat_map_map_strip, flat_map_app. reflexivity. }
  pose proof (strip_head_free is_slash op) as Ho.
  destruct (strip is_slash op) as [|c t] eqn:E.
  - change (lstrip is_slash (SLASH :: [] ++ SLASH :: ?x))
      with (lstrip is_slash x).
    rewrite (lstrip_id _ _ Hb), Hs. reflexivity.
  - change (lstrip is_slash (SLASH :: ?x)) with (lstrip is_slash x).
    rewrite lstrip_id by exact Ho.
    rewrite split_app, Hs. unfold segments. rewrite E. reflexivity.
Qed.

Lemma join_uri_leading_pieces (op : pystr) :
  join_uri (leading_pieces op) = join_uri [op].
Proof.
  unfold leading_pieces. rewrite join_uri_single.
  destruct (strip is_slash op) as [|c t] eqn:E; [reflexivity|].
  unfold join_uri, segments. rewrite E, map_strip_pieces.
  change (py "/") with [SLASH]. rewrite join_split. reflexivity.
Qed.

Lemma chunk_of_segments_any (a : pystr) :
  chunk_of (segments a) = join_uri [a].
Proof.
  unfold chunk_of, segments. change (py "/") with [SLASH].
  rewrite join_split, strip_idem. reflexivity.
Qed.

Lemma balanced_parts (a : pystr) :
  balanced a = true ->
  commas_inside 0 (segments a) = true /\ depth_after 0 (segments a) = 0%Z.
Proof. unfold balanced. rewrite andb_true_iff, Z.eqb_eq. tauto. Qed.

Lemma last_cons (A : Type) (l : list A) :
  forall x d, last (x :: l) d = last l x.
Proof.
  induction l as [|y l IH]; intros x d; [reflexivity|].
  change (last (x :: y :: l) d) with (last (y :: l) d).
  rewrite (IH y d), (IH y x). reflexivity.
Qed.

(** The state of the loop after the arguments that follow the first. *)
Lemma scan_rest_state (rest : list pystr) :
  forall (ch cur : list pystr),
  Forall (fun a => balanced a = true) rest ->
  fold_left scan_step
    (flat_map segments (flat_map (fun b => [py ","; b]) rest))
    (ch, cur, 0%Z) =
  (ch ++ map chunk_of (removelast (cur :: map segments rest)),
   last (map segments rest) cur, 0%Z).
Proof.
  induction rest as [|b rest IH]; intros ch cur Hr.
  - cbn. rewrite app_nil_r. reflexivity.
  - inversion Hr as [|? ? Hb Hrest]; subst.
    apply balanced_parts in Hb as [Hi Hd].
    change (flat_map segments (flat_map (fun b => [py ","; b]) (b :: rest)))
      with (py "," :: segments b ++
            flat_map segments (flat_map (fun b => [py ","; b]) rest)).
    cbn [fold_left].
    change (scan_step (ch, cur, 0%Z) (py ","))
      with (ch ++ [chunk_of cur], @nil pystr, 0%Z).
    rewrite fold_left_app, (scan_inside _ _ _ _ Hi), Hd. cbn [app].
    rewrite (IH _ _ Hrest). cbn [map].
    change (removelast (cur :: segments b :: map segments rest))
      with (cur :: removelast (segments b :: map segments rest)).
    rewrite (last_cons _ (map segments rest) (segments b) cur).
    cbn [map]. rewrite <- app_assoc. reflexivity.
Qed.

(** The state of the loop after the serialized arguments. *)
Lemma scan_body_state (a : pystr) (rest : list pystr) :
  Forall (fun a => balanced a = true) (a :: rest) ->
  fold_left scan_step (flat_map segments (comma_separated (a :: rest)))
    ([], [], 0%Z) =
  (map chunk_of (removelast (map segments (a :: rest))),
   last (map segments (a :: rest)) [], 0%Z).
Proof.
  intros H. inversion H as [|? ? Ha Hrest]; subst.
  apply balanced_parts in Ha as [Hi Hd].
  change (flat_map segments (comma_separated (a :: rest)))
    with (segments a ++
          flat_map segments (flat_map (fun b => [py ","; b]) rest)).
  rewrite fold_left_app, (scan_inside _ _ _ _ Hi), Hd. cbn [app].
  rewrite (scan_rest_state rest _ _ Hrest). cbn [app map].
  rewrite (last_cons _ (map segments rest) (segments a) []). reflexivity.
Qed.

Lemma last_segments_nonempty (l : list pystr) (d : list pystr) :
  l <> [] -> last (map segments l) d <> [].
Proof.
  intros H. destruct (exists_last H) as (l' & z & ->).
  rewrite map_app. cbn [map]. rewrite last_last. apply segments_nonempty.
Qed.

Lemma chunks_of_segments (args : list pystr) :
  args <> [] ->
  map chunk_of (removelast (map segments args))
    ++ [chunk_of (last (map segments args) [])]
  = map (fun a => join_uri [a]) args.
Proof.
  intros H. destruct (exists_last H) as (l' & z & ->).
  rewrite map_app. cbn [map]. rewrite removelast_last, last_last.
  rewrite map_app, map_map. cbn [map]. rewrite chunk_of_segments_any.
  f_equal. apply map_ext. intros a. apply chunk_of_segments_any.
Qed.

Lemma no_bracket_leading (op : pystr) :
  contains (py "[") (segments op) = false ->
  contains (py "[") (leading_pieces op) = false.
Proof.
  unfold leading_pieces. destruct (strip is_slash op); auto.
Qed.

(** ** Serializing, then parsing *)

(** X4: whatever slashes the operator and the arguments carry, parsing a
    serialized compound gives them back in [join_uri] form, provided no
    segment of the operator is an opening bracket and the arguments are
    balanced. *)
Theorem compound_parse_normalizes (op : pystr) (args : list pystr) :
  contains (py "[") (segments op) = false ->
  Forall (fun a => balanced a = true) args ->
  parse_compound_uri (compound_uri op args) =
  Ok (join_uri [op], map (fun a => join_uri [a]) args).
Proof.
  intros Hop Hargs. apply no_bracket_leading in Hop.
  unfold parse_compound_uri. fold (uri_pieces (compound_uri op args)).
  rewrite compound_uri_items, uri_pieces_bracketed.
  rewrite last_piece_closing, contains_middle.
  change (str_eqb (py "]") (py "]")) with true. cbn [negb].
  rewrite (index_middle _ _ _ Hop), slice_prefix, slice_body.
  rewrite join_uri_leading_pieces.
  destruct args as [|a rest]; [reflexivity|].
  rewrite (scan_body_state a rest Hargs).
  pose proof (last_segments_nonempty (a :: rest) [] ltac:(discriminate)) as Hl.
  pose proof (chunks_of_segments (a :: rest) ltac:(discriminate)) as Hc.
  destruct (last (map segments (a :: rest)) []) as [|c current];
    [congruence|].
  rewrite Hc. reflexivity.
Qed.

Lemma compound_parse_normalizes_witness :
  parse_compound_uri (compound_uri (py "and") [py "s/x/"; py "//s/y"]) =
  Ok (join_uri [py "and"],
      map (fun a => join_uri [a]) [py "s/x/"; py "//s/y"]).
Proof.
  apply (compound_parse_normalizes (py "and") [py "s/x/"; py "//s/y"]).
  - reflexivity.
  - repeat constructor.
Defined.

(** X5: what [compound_uri] returns always parses: [parse_compound_uri]
    raises on no serialized compound, whatever the operator and the
    arguments are. *)
Theorem compound_uri_always_parses (op : pystr) (args : list pystr) :
  exists (op' : pystr) (args' : list pystr),
    parse_compound_uri (compound_uri op args) = Ok (op', args').
Proof.
  unfold parse_compound_uri. fold (uri_pieces (compound_uri op args)).
  rewrite compound_uri_items, uri_pieces_bracketed.
  rewrite last_piece_closing, contains_middle.
  change (str_eqb (py "]") (py "]")) with true. cbn [negb].
  destruct (fold_left scan_step _ _) as [[chunks current] depth].
  eexists _, _. reflexivity.
Qed.

(** X6: a comma segment right before the closing bracket is dropped in
    silence: with at least one argument, the URI with that further comma
    parses to the operator and the arguments of the serialized compound. *)
Theorem trailing_comma_is_dropped (op : pystr) (args : list pystr) :
  args <> [] ->
  contains (py "[") (segments op) = false ->
  Forall (fun a => balanced a = true) args ->
  parse_compound_uri
    (join_uri (op :: py "[" :: (comma_separated args ++ [py ","])
                 ++ [py "]"])) =
  Ok (join_uri [op], map (fun a => join_uri [a]) args).
Proof.
  intros Hne Hop Hargs.
  apply no_bracket_leading in Hop.
  unfold parse_compound_uri.
  fold (uri_pieces (join_uri (op :: py "[" ::
          (comma_separated args ++ [py ","]) ++ [py "]"]))).
  rewrite uri_pieces_bracketed.
  rewrite last_piece_closing, contains_middle.
  change (str_eqb (py "]") (py "]")) with true. cbn [negb].
  rewrite (index_middle _ _ _ Hop), slice_prefix, slice_body.
  rewrite join_uri_leading_pieces.
  destruct args as [|a rest]; [congruence|].
  rewrite flat_map_app, fold_left_app, (scan_body_state a rest Hargs).
  pose proof (chunks_of_segments (a :: rest) ltac:(discriminate)) as Hc.
  change (flat_map segments [py ","]) with [py ","].
  cbn [fold_left].
  change (scan_step (?c, ?cur, 0%Z) (py ","))
    with (c ++ [chunk_of cur], @nil pystr, 0%Z).
  rewrite Hc. reflexivity.
Qed.

Lemma trailing_comma_is_dropped_witness :
  parse_compound_uri
    (join_uri (py "/and" :: py "[" ::
                 (comma_separated [py "/s/x"; py "/s/y"] ++ [py ","])
                 ++ [py "]"])) =
  Ok (join_uri [py "/and"],
      map (fun a => join_uri [a]) [py "/s/x"; py "/s/y"]).
Proof.
  apply (trailing_comma_is_dropped (py "/and") [py "/s/x"; py "/s/y"]).
  - discriminate.
  - reflexivity.
  - repeat constructor.
Defined.

(** X7: serialization is unambiguous: two compounds over operator URIs and
    argument URIs are the same string only when the operators and the
    arguments are the same. *)
Theorem compound_uri_injective (op op' : pystr) (args args' : list pystr) :
  wf_op op = true -> wf_op op' = true ->
  Forall (fun a => wf_arg a = true) args ->
  Forall (fun a => wf_arg a = true) args' ->
  compound_uri op args = compound_uri op' args' ->
  op = op' /\ args = args'.
Proof.
  intros Hop Hop' Ha Ha' E.
  apply wf_op_parts in Hop as [Hu Hn], Hop' as [Hu' Hn'].
  pose proof (parse_compound op args Hu (no_reserved_no_bracket op Hn) Ha)
    as P.
  pose proof (parse_compound op' args' Hu'
                (no_reserved_no_bracket op' Hn') Ha') as P'.
  rewrite E, P' in P. injection P as -> ->. split; reflexivity.
Qed.

Lemma compound_uri_injective_witness :
  py "/or" = py "/or" /\ [py "/s/x"; py "/s/y"] = [py "/s/x"; py "/s/y"].
Proof.
  apply (compound_uri_injective (py "/or") (py "/or")
           [py "/s/x"; py "/s/y"] [py "/s/x"; py "/s/y"]);
    try reflexivity; repeat constructor.
Defined.

Lemma map_strip_comma_separated (f : pystr -> pystr) (args : list pystr) :
  (forall a, strip is_slash (f a) = strip is_slash a) ->
  map (strip is_slash) (comma_separated (map f args))
  = map (strip is_slash) (comma_separated args).
Proof.
  intros Hf. destruct args as [|a rest]; [reflexivity|].
  cbn [map comma_separated]. rewrite Hf. f_equal.
  induction rest as [|b rest IH]; [reflexivity|].
  cbn [map flat_map app]. rewrite Hf, IH. reflexivity.
Qed.

(** X8: serialization does not depend on the slashes around the operator and
    the arguments: it gives the same string on their [join_uri] forms. *)
Theorem compound_uri_ignores_slashes (op : pystr) (args : list pystr) :
  compound_uri (join_uri [op]) (map (fun a => join_uri [a]) args)
  = compound_uri op args.
Proof.
  rewrite !compound_uri_items.
  rewrite (join_uri_unfold (join_uri [op] :: _)).
  rewrite (join_uri_unfold (op :: py "[" :: _)).
  f_equal. f_equal.
  rewrite !map_cons, !map_app, strip_join_uri_single.
  rewrite (map_strip_comma_separated (fun a => join_uri [a]) args
             strip_join_uri_single).
  reflexivity.
Qed.

Lemma index_split (x : pystr) (l : list pystr) :
  contains x l = true ->
  l = firstn (index x l) l ++ x :: skipn (index x l + 1) l /\
  ~ In x (firstn (index x l) l).
Proof.
  unfold contains.
  induction l as [|y l IH]; cbn [existsb index]; [discriminate|].
  rewrite (str_eqb_sym x y).
  destruct (str_eqb y x) eqn:E.
  - intros _. apply str_eqb_eq in E. subst y. split; [reflexivity|].
    intros [].
  - cbn [orb]. intros H. destruct (IH H) as [H1 H2].
    cbn [firstn skipn Nat.add app]. split.
    + f_equal. exact H1.
    + intros [Hy|Hin]; [|exact (H2 Hin)].
      subst y. rewrite str_eqb_refl in E. discriminate.
Qed.

(** X9: the operator a successful parse returns is the join of the pieces
    that come before the first opening-bracket piece of the URI. *)
Theorem parsed_operator (uri op : pystr) (args : list pystr) :
  parse_compound_uri uri = Ok (op, args) ->
  exists (before after : list pystr),
    uri_pieces uri = before ++ py "[" :: after /\
    ~ In (py "[") before /\
    op = join_uri before.
Proof.
  unfold parse_compound_uri. fold (uri_pieces uri).
  destruct (negb (str_eqb _ _)); [discriminate|].
  destruct (contains (py "[") (uri_pieces uri)) eqn:Ec; [|discriminate].
  cbn [negb].
  destruct (fold_left scan_step _ _) as [[chunks current] depth].
  intros E. injection E as <- _.
  destruct (index_split _ _ Ec) as [H1 H2].
  exists (firstn (index (py "[") (uri_pieces uri)) (uri_pieces uri)),
         (skipn (index (py "[") (uri_pieces uri) + 1) (uri_pieces uri)).
  split; [exact H1|]. split; [exact H2|].
  unfold slice. rewrite Nat.sub_0_r. reflexivity.
Qed.

Lemma parsed_operator_witness :
  exists (before after : list pystr),
    uri_pieces (py "/a/b/[/x/[/]") = before ++ py "[" :: after /\
    ~ In (py "[") before /\
    py "/a/b" = join_uri before.
Proof.
  apply (parsed_operator (py "/a/b/[/x/[/]") (py "/a/b") [py "/x/["]).
  reflexivity.
Defined.

Lemma last_split_slash (s : pystr) :
  last_free is_slash s = false -> last (split SLASH s) [] = [].
Proof.
  unfold last_free. intros H.
  destruct (rev s) as [|c r] eqn:E; [discriminate|].
  cbn [head_free] in H. apply negb_false_iff in H.
  apply N.eqb_eq in H. subst c.
  assert (Hs : s = rev r ++ [SLASH]).
  { rewrite <- (rev_involutive s), E. reflexivity. }
  rewrite Hs, split_app. cbn [split]. apply last_last.
Qed.

Lemma last_in (l : list pystr) : l <> [] -> In (last l []) l.
Proof.
  intros H. destruct (exists_last H) as (l' & z & ->).
  rewrite last_last. apply in_or_app. right. left. reflexivity.
Qed.

(** X10: a URI none of whose segments is a bracket or a comma is not a
    compound: [parse_compound_uri] raises on it, asking for the closing
    bracket. *)
Theorem plain_uri_does_not_parse (u : pystr) :
  no_reserved_segments u = true ->
  parse_compound_uri u = Raise (ValueError "Compound URIs must end with /]").
Proof.
  intros H. unfold parse_compound_uri.
  assert (Hl : str_eqb (last_piece (split SLASH (lstrip is_slash u)))
                 (py "]") = false).
  { apply str_eqb_neq. unfold last_piece.
    destruct (last_free is_slash (lstrip is_slash u)) eqn:F.
    - assert (Hs : split SLASH (lstrip is_slash u) = segments u).
      { unfold segments, strip. rewrite (rstrip_id _ _ F). reflexivity. }
      rewrite Hs. intros E.
      unfold no_reserved_segments in H. rewrite forallb_forall in H.
      specialize (H _ (last_in _ (segments_nonempty u))).
      rewrite E in H. discriminate H.
    - rewrite (last_split_slash _ F). discriminate. }
  rewrite Hl. reflexivity.
Qed.

Lemma plain_uri_does_not_parse_witness :
  parse_compound_uri (py "/c/en/cat") =
  Raise (ValueError "Compound URIs must end with /]").
Proof. apply (plain_uri_does_not_parse (py "/c/en/cat")). reflexivity. Defined.

(** X11: the sources of a conjunction or a disjunction of two or more
    argument URIs can be read back: the builder returns a string that parses
    to the operator ['/and'], respectively ['/or'], and the sources. *)
Theorem junction_parses_back (s1 s2 : pystr) (more : list pystr) :
  Forall (fun a => wf_arg a = true) (s1 :: s2 :: more) ->
  (exists u, conjunction_uri (map PStr (s1 :: s2 :: more)) = Ok (PStr u) /\
             parse_compound_uri u = Ok (py "/and", s1 :: s2 :: more)) /\
  (exists u, disjunction_uri (map PStr (s1 :: s2 :: more)) = Ok (PStr u) /\
             parse_compound_uri u = Ok (py "/or", s1 :: s2 :: more)).
Proof.
  intros H. split.
  - exists (compound_uri (py "/and") (s1 :: s2 :: more)). split.
    + change (map PStr (s1 :: s2 :: more))
        with (PStr s1 :: PStr s2 :: map PStr more).
      unfold conjunction_uri.
      change (PStr s1 :: PStr s2 :: map PStr more)
        with (map PStr (s1 :: s2 :: more)).
      rewrite mapM_as_str. reflexivity.
    + apply parse_compound; [reflexivity|reflexivity|exact H].
  - exists (compound_uri (py "/or") (s1 :: s2 :: more)). split.
    + change (map PStr (s1 :: s2 :: more))
        with (PStr s1 :: PStr s2 :: map PStr more).
      unfold disjunction_uri.
      change (PStr s1 :: PStr s2 :: map PStr more)
        with (map PStr (s1 :: s2 :: more)).
      rewrite mapM_as_str. reflexivity.
    + apply parse_compound; [reflexivity|reflexivity|exact H].
Qed.

Lemma junction_parses_back_witness :
  exists u,
    conjunction_uri (map PStr [py "/s/x"; py "/or/[/s/y/,/s/z/]"])
    = Ok (PStr u) /\
    parse_compound_uri u = Ok (py "/and", [py "/s/x"; py "/or/[/s/y/,/s/z/]"]).
Proof.
  apply (junction_parses_back (py "/s/x") (py "/or/[/s/y/,/s/z/]") []).
  repeat constructor.
Defined.

(** X12: [parse_compound_uri] does not look at leading slashes: a URI parses
    the same with none, one or several of them. *)
Theorem parse_ignores_leading_slashes (n : nat) (uri : pystr) :
  parse_compound_uri (repeat SLASH n ++ uri) = parse_compound_uri uri.
Proof.
  unfold parse_compound_uri. rewrite lstrip_repeat. reflexivity.
Qed.

(** ** Concept URIs *)

(** X13: concept URIs extend one another: the URI with a part of speech is
    the URI without it followed by a slash and the part of speech, and the
    URI with a disambiguation is that one followed by a slash and the
    normalized disambiguation, parts taken without their outer slashes. *)
Theorem concept_uri_extends (fix_text lower : pystr -> pystr)
        (lang text pos disambiguation : pystr) :
  exists base,
    concept_uri fix_text lower lang text None None = Ok base /\
    concept_uri fix_text lower lang text (Some pos) None =
      Ok (base ++ py "/" ++ strip is_slash pos) /\
    concept_uri fix_text lower lang text (Some pos) (Some disambiguation) =
      Ok (base ++ py "/" ++ strip is_slash pos ++ py "/"
               ++ strip is_slash
                    (normalize_text fix_text lower disambiguation)).
Proof.
  set (n_text := normalize_text fix_text lower text).
  exists (join_uri [py "/c"; lang; n_text]).
  cbn [concept_uri]. fold n_text. repeat split.
  - change [py "/c"; lang; n_text; pos]
      with ([py "/c"; lang; n_text] ++ [pos]).
    rewrite join_uri_snoc by discriminate. reflexivity.
  - change [py "/c"; lang; n_text; pos;
            normalize_text fix_text lower disambiguation]
      with (([py "/c"; lang; n_text] ++ [pos])
              ++ [normalize_text fix_text lower disambiguation]).
    rewrite join_uri_snoc by discriminate.
    rewrite join_uri_snoc by discriminate.
    rewrite <- app_assoc. reflexivity.
Qed.

Section ConceptFacts.

Variable fix_text : pystr -> pystr.
Variable lower : pystr -> pystr.

Hypothesis lower_idempotent : forall s, lower (lower s) = lower s.
Hypothesis lower_replace :
  forall s, lower (replace SPACE UNDERSCORE s)
            = replace SPACE UNDERSCORE (lower s).
Hypothesis lower_stripped : forall s, stripped s -> stripped (lower s).
Hypothesis fix_text_normalized :
  forall x, fix_text (normalize_text fix_text lower x)
            = normalize_text fix_text lower x.



End ConceptFacts.

